(** * multiget: range planning, fetching, validation and reassembly

    A shallow embedding of [src/index.ts] and the properties of its
    chunk planner ([getChunks]), capability check ([acceptsRanges]),
    range formatting ([formatChunk]) and download pipeline ([download]).

    Numbers.  The program computes with JavaScript numbers.  Every
    quantity below is an integer (byte counts, offsets, chunk counts),
    and on integers of magnitude below 2^53 the operations used by the
    source ([+], [-], [>], [%] and a division whose dividend is a
    multiple of the divisor) are exact, so they are modelled on [Z]:
    [%] is the truncating remainder [Z.rem] (sign of the dividend) and
    the division is [Z.quot].  A chunk count of [0] makes the source
    compute [NaN]; the model covers non-zero chunk counts.

    Domain.  The embedding agrees with the program on [validInputs]:
    lengths that are safe integers (magnitude at most 2^53 - 1, where
    numbers neither round nor print in exponent form) and a positive
    chunk count for which [Array.from] can build its array.  There every
    intermediate value of the planner has magnitude at most 2^53
    ([getChunks_exact]).  In [download] the content length is read from a
    header: the model covers headers that are strings of decimal digits;
    for any other header the program goes on with what the coercion
    gives ([NaN] for an absent header), which the model does not follow
    ([Unmodelled]).  A statement that depends on the arithmetic, on the
    printed numbers or on the content-length header carries the
    restriction as a hypothesis ([validInputs], [exactChunk],
    [withinModel]). *)

From stdpp Require Import base numbers list strings gmap pretty.
From Stdlib Require Import ZArith Lia Ascii.
From Stdlib.Strings Require Import Byte.

Local Open Scope Z_scope.

(** ** Data model *)

(** [interface Chunk { size: number, offset: number }] *)
Record Chunk := mkChunk { size : Z; offset : Z }.

(** ** The chunk planner *)

(** The [forEach] over [Array.from({ length: numberOfChunks - 1 })]: each
    round pushes [{ size: chunkSize - 1, offset: offset + 1 }] at the end
    of [chunks] and then advances [offset] by [chunkSize].  The state
    threaded through the rounds is the pair [(chunks, offset)]. *)
Fixpoint pushRest (rounds : nat) (chunkSize : Z)
    (chunks : list Chunk) (offset : Z) : list Chunk * Z :=
  match rounds with
  | O => (chunks, offset)
  | S rounds' =>
      pushRest rounds' chunkSize
        (chunks ++ [ {| size := chunkSize - 1; offset := offset + 1 |} ])
        (offset + chunkSize)
  end.

(** [getChunks(contentLength, numberOfChunks, contentLengthLimit)].
    [Array.from({ length: k })] has [k] elements for [k >= 0] and none
    for a negative [k], which is [Z.to_nat k]. *)
Definition getChunks (contentLength numberOfChunks contentLengthLimit : Z)
    : list Chunk :=
  let contentLength :=
    if contentLength >? contentLengthLimit then contentLengthLimit
    else contentLength in
  let contentLength := contentLength - 1 in
  let bytesToRedistribute := Z.rem contentLength numberOfChunks in
  let chunkSize :=
    Z.quot (contentLength - bytesToRedistribute) numberOfChunks in
  let firstChunkSize := chunkSize + bytesToRedistribute in
  let chunks := [] in
  let offset := 0 in
  let chunks := chunks ++ [ {| size := firstChunkSize; offset := offset |} ] in
  let offset := offset + firstChunkSize in
  fst (pushRest (Z.to_nat (numberOfChunks - 1)) chunkSize chunks offset).

(** ** Range formatting *)

(** [formatChunk(chunk)].  A template literal prints an integer (of
    magnitude below 10^21) in decimal, with a leading [-] when negative;
    that is stdpp's [pretty] on [Z]. *)
Definition formatChunk (chunk : Chunk) : string :=
  pretty (offset chunk) +:+ "-" +:+ pretty (offset chunk + size chunk).

(** ** Vocabulary of the planner's properties *)

(** The inclusive byte interval requested for a chunk contains [b]. *)
Definition covers (chunk : Chunk) (b : Z) : Prop :=
  offset chunk <= b <= offset chunk + size chunk.

(** Number of bytes the chunks request: the sum of [size + 1]. *)
Definition bytesCovered (chunks : list Chunk) : Z :=
  foldr (fun chunk acc => (size chunk + 1) + acc) 0 chunks.

(** Every element is strictly below the next one. *)
Fixpoint strictlyIncreasing (l : list Z) : bool :=
  match l with
  | [] => true
  | x :: tl =>
      match tl with
      | [] => true
      | y :: _ => (x <? y) && strictlyIncreasing tl
      end
  end.

(** *** Where the numbers are exact *)

(** [Number.MAX_SAFE_INTEGER], 2^53 - 1. *)
Definition MAX_SAFE_INTEGER : Z := 9007199254740991.

(** [Number.isSafeInteger] on an integer. *)
Definition safeInteger (z : Z) : Prop :=
  - MAX_SAFE_INTEGER <= z <= MAX_SAFE_INTEGER.

(** An integer of magnitude at most 2^53: a number holds it exactly, and
    a template literal prints it in decimal. *)
Definition exactInteger (z : Z) : Prop :=
  - (MAX_SAFE_INTEGER + 1) <= z <= MAX_SAFE_INTEGER + 1.

(** The largest length of an array, 2^32 - 1. *)
Definition MAX_ARRAY_LENGTH : Z := 4294967295.

(** The inputs of the planner on which the embedding is exact: both
    lengths are safe integers, the chunk count is positive and
    [Array.from({ length: numberOfChunks - 1 })] is within the length of
    an array. *)
Definition validInputs (contentLength numberOfChunks contentLengthLimit : Z)
    : Prop :=
  safeInteger contentLength /\ safeInteger contentLengthLimit
  /\ 0 < numberOfChunks /\ numberOfChunks - 1 <= MAX_ARRAY_LENGTH.

(** A chunk whose offset, size and end are held and printed exactly. *)
Definition exactChunk (chunk : Chunk) : Prop :=
  exactInteger (offset chunk) /\ exactInteger (size chunk)
  /\ exactInteger (offset chunk + size chunk).

(** *** Closed form of the plan *)

(** The chunks after the first, when the running offset is [offset]. *)
Fixpoint restChunks (rounds : nat) (chunkSize offset : Z) : list Chunk :=
  match rounds with
  | O => []
  | S rounds' =>
      {| size := chunkSize - 1; offset := offset + 1 |}
        :: restChunks rounds' chunkSize (offset + chunkSize)
  end.

(** The span [min(contentLength, limit) - 1] the planner divides. *)
Definition span (contentLength contentLengthLimit : Z) : Z :=
  Z.min contentLength contentLengthLimit - 1.

Definition baseSpan (contentLength numberOfChunks contentLengthLimit : Z) : Z :=
  Z.quot (span contentLength contentLengthLimit) numberOfChunks.

Definition firstSpan (contentLength numberOfChunks contentLengthLimit : Z) : Z :=
  baseSpan contentLength numberOfChunks contentLengthLimit
  + Z.rem (span contentLength contentLengthLimit) numberOfChunks.


(** ** Promises, effects and the network *)

(** A byte buffer ([Buffer], [ArrayBuffer]). *)
Definition Buffer : Type := list Byte.byte.

(** [axios] response: the fields the program reads. *)
Record Response := mkResponse {
  status : Z;
  headers : gmap string string;
  data : Buffer
}.

(** The value each fetch resolves to: [{ chunk, response }]. *)
Record ChunkResponse := mkChunkResponse { chunk : Chunk; response : Response }.

(** What a rejected promise carries: an [Error] thrown by the program, or
    whatever [axios] rejects with (a transport failure, or a status that
    its default [validateStatus] refuses, that is one outside 2xx). *)
Inductive exn :=
  | Error (message : string)
  | AxiosError (reason : string).

(** A promise that has settled. *)
Inductive settled (A : Type) :=
  | Fulfilled (value : A)
  | Rejected (reason : exn).
Arguments Fulfilled {A} value.
Arguments Rejected {A} reason.

(** The state of the promise an [async] function returns.  [Unmodelled]
    marks the runs the model does not follow: those in which the
    content-length header is absent or is not a string of decimal digits.
    The program does go on in such a run (with [NaN], or with whatever
    number the string is coerced to), so [Unmodelled] says nothing about
    what it does there. *)
Inductive outcome (A : Type) :=
  | Resolved (value : A)
  | Failed (reason : exn)
  | Pending
  | Unmodelled.
Arguments Resolved {A} value.
Arguments Failed {A} reason.
Arguments Pending {A}.
Arguments Unmodelled {A}.

(** Observable effects, in the order the program performs them. *)
Inductive event :=
  | Log (line : string)
  | HeadRequest (url : string)
  | GetRequest (url range : string).

(** The environment of one run.  [axios_get k url range] is how the
    [k]-th call of [axios.get] settles (calls are numbered from 0, so the
    server may answer equal requests differently); [arrival] lists the
    indices of those calls in the order in which they settle. *)
Record Network := mkNetwork {
  axios_head : string -> settled Response;
  axios_get : nat -> string -> string -> settled Response;
  arrival : list nat
}.

(** An [async] computation: the events it performs and its outcome. *)
Definition Async (A : Type) : Type := list event * outcome A.

Definition ret {A} (a : A) : Async A := ([], Resolved a).

Definition throw {A} (e : exn) : Async A := ([], Failed e).

Definition bind {A B} (m : Async A) (f : A -> Async B) : Async B :=
  match m with
  | (t, Resolved a) => let (t', o) := f a in (t ++ t', o)
  | (t, Failed e) => (t, Failed e)
  | (t, Pending) => (t, Pending)
  | (t, Unmodelled) => (t, Unmodelled)
  end.

Declare Scope async_scope.
Delimit Scope async_scope with async.
Notation "x <- m ;; k" := (bind m (fun x => k))
  (at level 100, m at next level, right associativity) : async_scope.
Notation "m ;;; k" := (bind m (fun _ => k))
  (at level 100, right associativity) : async_scope.

Definition console_log (line : string) : Async unit := ([Log line], Resolved tt).

(** [await] on a promise of the environment, after performing [e]. *)
Definition await {A} (e : event) (p : settled A) : Async A :=
  match p with
  | Fulfilled a => ([e], Resolved a)
  | Rejected r => ([e], Failed r)
  end.

(** How a header value prints: the string itself, or [undefined]. *)
Definition display (v : option string) : string := default "undefined" v.

(** Value of a decimal digit. *)
Definition digit (c : ascii) : option Z :=
  let n := Z.of_nat (nat_of_ascii c) - 48 in
  if (0 <=? n) && (n <=? 9) then Some n else None.

Fixpoint digits (s : string) (acc : Z) : option Z :=
  match s with
  | EmptyString => Some acc
  | String c s' =>
      match digit c with
      | Some d => digits s' (10 * acc + d)
      | None => None
      end
  end.

(** The number a header value is coerced to when [getChunks] compares it
    and subtracts from it: a string of decimal digits is its value (the
    empty string is 0), exactly so when that value is a safe integer.
    [None] stands for every other case (an absent header, which gives
    [NaN], and strings with signs, spaces, fractions or exponents, which
    the program coerces in ways the model does not follow). *)
Definition ToNumber (v : option string) : option Z :=
  match v with
  | Some s => digits s 0
  | None => None
  end.

(** ** The capability check *)

(** [acceptsRanges(headers)] *)
Definition acceptsRanges (headers : gmap string string) : Async bool :=
  let acceptRangesHeader := headers !! "accept-ranges" in
  (console_log (display acceptRangesHeader) ;;;
   ret (negb (bool_decide (acceptRangesHeader = Some "none")
              || bool_decide (acceptRangesHeader = None))))%async.

(** ** Promise.all *)

(** The values array once every slot is filled. *)
Fixpoint collect {A} (values : list (option A)) : option (list A) :=
  match values with
  | [] => Some []
  | Some v :: tl => (fun vs => v :: vs) <$> collect tl
  | None :: _ => None
  end.

(** [Promise.all] as the language defines it: a fulfilment of the promise
    at [index] stores its value in slot [index] of the values array; the
    first rejection rejects the whole; the whole resolves with the
    values array when no slot is left empty. *)
Fixpoint settle {A} (values : list (option A))
    (arrivals : list (nat * settled A)) : outcome (list A) :=
  match arrivals with
  | [] =>
      match collect values with
      | Some vs => Resolved vs
      | None => Pending
      end
  | (index, Rejected e) :: _ => Failed e
  | (index, Fulfilled v) :: rest => settle (<[index := Some v]> values) rest
  end.

Definition Promise_all {A} (arrival : list nat) (promises : list (settled A))
    : outcome (list A) :=
  settle (replicate (length promises) None)
         (omap (fun index => (fun p => (index, p)) <$> promises !! index) arrival).

(** ** The download pipeline *)

(** The callback of [chunks.map]: up to its [await] it runs at once, logs
    the header and calls [axios.get]; the promise it returns settles with
    [{ chunk, response }] when the request does. *)
Definition fetchChunk (net : Network) (url : string) (k : nat) (chunk : Chunk)
    : list event * settled ChunkResponse :=
  let rangeHeader := "bytes=" +:+ formatChunk chunk in
  ([Log ("Range: " +:+ rangeHeader); GetRequest url rangeHeader],
   match axios_get net k url rangeHeader with
   | Fulfilled response => Fulfilled {| chunk := chunk; response := response |}
   | Rejected e => Rejected e
   end).

(** [await Promise.all(chunks.map(async chunk => ...))] *)
Definition fetchAll (net : Network) (url : string) (chunks : list Chunk)
    : Async (list ChunkResponse) :=
  let promises := imap (fetchChunk net url) chunks in
  (concat (fst <$> promises), Promise_all (arrival net) (snd <$> promises)).

Definition newline : string := String "010"%char EmptyString.

(** A plain object interpolated in a template literal. *)
Definition Object_toString (o : ChunkResponse) : string := "[object Object]".

(** An array interpolated in a template literal: its elements' strings
    joined by commas. *)
Definition Array_toString (l : list ChunkResponse) : string :=
  String.concat "," (Object_toString <$> l).

Definition isInvalid (r : ChunkResponse) : bool :=
  negb (status (response r) =? 206).

Definition Buffer_concat (l : list Buffer) : Buffer := concat l.

(** [download(url, numberOfChunks, limit)].  Where the content-length
    header is not a string of decimal digits the model stops with
    [Unmodelled]: the program goes on there, with range requests computed
    from [NaN] or from the number the string is coerced to, which this
    definition does not describe. *)
Definition download (net : Network) (url : string) (numberOfChunks limit : Z)
    : Async Buffer :=
  (headResponse <- await (HeadRequest url) (axios_head net url) ;;
   supported <- acceptsRanges (headers headResponse) ;;
   if negb supported then
     throw (Error (url +:+ " does not support partial requests."))
   else
     let contentLength := headers headResponse !! "content-length" in
     console_log ("content-length: " +:+ display contentLength) ;;;
     match ToNumber contentLength with
     | None => ([], Unmodelled)
     | Some contentLength =>
         let chunks := getChunks contentLength numberOfChunks limit in
         responses <- fetchAll net url chunks ;;
         let invalidRespones := List.filter isInvalid responses in
         if negb (length invalidRespones =? 0)%nat then
           throw (Error ("received invalid responses:" +:+ newline +:+ " "
                         +:+ Array_toString invalidRespones))
         else
           ret (Buffer_concat ((fun r => data (response r)) <$> responses))
     end)%async.

(** The range requests of a trace, in order. *)
Definition getRequests (trace : list event) : list (string * string) :=
  omap (fun e => match e with
                 | GetRequest url range => Some (url, range)
                 | _ => None
                 end) trace.

(** What the synchronous part of each fetch does: log, then request. *)
Definition fetchEvents (url : string) (chunk : Chunk) : list event :=
  [Log ("Range: " +:+ "bytes=" +:+ formatChunk chunk);
   GetRequest url ("bytes=" +:+ formatChunk chunk)].

(** The error thrown when some response is not a 206. *)
Definition invalidError (invalid : list ChunkResponse) : exn :=
  Error ("received invalid responses:" +:+ newline +:+ " "
         +:+ Array_toString invalid).

(** What [download] does with the result of the fetches. *)
Definition validated (fetched : outcome (list ChunkResponse)) : outcome Buffer :=
  match fetched with
  | Resolved responses =>
      if negb (length (List.filter isInvalid responses) =? 0)%nat
      then Failed (invalidError (List.filter isInvalid responses))
      else Resolved (Buffer_concat ((fun r => data (response r)) <$> responses))
  | Failed e => Failed e
  | Pending => Pending
  | Unmodelled => Unmodelled
  end.

(** A run the model follows to its end: if the probe succeeds and passes
    the capability check, the content-length header is a string of
    decimal digits and, with the number it denotes, the inputs of the
    planner are valid. *)
Definition withinModel (net : Network) (url : string)
    (numberOfChunks limit : Z) : Prop :=
  forall headResponse,
    axios_head net url = Fulfilled headResponse ->
    (exists v, headers headResponse !! "accept-ranges" = Some v /\ v <> "none") ->
    exists contentLength,
      ToNumber (headers headResponse !! "content-length") = Some contentLength
      /\ validInputs contentLength numberOfChunks limit.

(** ** Example servers *)

(** The header map of a server that honours range requests for a
    resource of 1000 bytes. *)
Definition rangeHeaders : gmap string string :=
  {[ "accept-ranges" := "bytes"; "content-length" := "1000" ]}.

(** The payload of the [k]-th answer: the single byte [k]. *)
Definition payload (k : nat) : Buffer := [default x00 (Byte.of_nat k)].

(** A server whose [k]-th range answer has the status [statusOf k], and
    whose answers arrive last request first. *)
Definition server (statusOf : nat -> Z) : Network :=
  {| axios_head := fun _ => Fulfilled (mkResponse 200 rangeHeaders []);
     axios_get := fun k _ _ => Fulfilled (mkResponse (statusOf k) ∅ (payload k));
     arrival := [3; 2; 1; 0]%nat |}.

(** Status codes of four answers of which the first two, or the last
    two, are a plain 200 (the server ignored the range header). *)
Definition firstTwoInvalid (k : nat) : Z := if (k <? 2)%nat then 200 else 206.
Definition lastTwoInvalid (k : nat) : Z := if (k <? 2)%nat then 206 else 200.

(** A server without an [accept-ranges] header. *)
Definition plainServer : Network :=
  {| axios_head := fun _ =>
       Fulfilled (mkResponse 200 {[ "content-length" := "1000" ]} []);
     axios_get := fun _ _ _ => Rejected (AxiosError "unreachable");
     arrival := [] |}.

(** Every character of the string is a decimal digit. *)
Fixpoint allDigits (s : string) : bool :=
  match s with
  | EmptyString => true
  | String c s' => bool_decide (is_Some (digit c)) && allDigits s'
  end.

(** ** Resources and well-behaved servers *)

(** The bytes of [file] in the inclusive interval a chunk requests. *)
Definition slice (file : Buffer) (chunk : Chunk) : Buffer :=
  take (Z.to_nat (size chunk + 1)) (drop (Z.to_nat (offset chunk)) file).

(** A server holding [file]: it advertises byte ranges and the length of
    the file, and answers the [k]-th range request of the plan with a 206
    that carries the bytes of the [k]-th chunk. *)
Definition fileServer (file : Buffer) (numberOfChunks limit : Z)
    (arrival : list nat) : Network :=
  let contentLength := Z.of_nat (length file) in
  {| axios_head := fun _ =>
       Fulfilled (mkResponse 200
                    {[ "accept-ranges" := "bytes";
                       "content-length" := pretty contentLength ]} []);
     axios_get := fun k _ _ =>
       match getChunks contentLength numberOfChunks limit !! k with
       | Some chunk => Fulfilled (mkResponse 206 ∅ (slice file chunk))
       | None => Rejected (AxiosError "no such request")
       end;
     arrival := arrival |}.

(** Ten bytes, 0 to 9. *)
Definition tenBytes : Buffer := [x00; x01; x02; x03; x04; x05; x06; x07; x08; x09].

(** A server whose request 2 fails in transport and whose other answers
    are plain 200s; answers arrive last request first. *)
Definition flakyServer : Network :=
  {| axios_head := fun _ => Fulfilled (mkResponse 200 rangeHeaders []);
     axios_get := fun k _ _ =>
       if (k =? 2)%nat then Rejected (AxiosError "ECONNRESET")
       else Fulfilled (mkResponse 200 ∅ (payload k));
     arrival := [3; 2; 1; 0]%nat |}.

(** A server whose answer to request 0 never arrives. *)
Definition stalledServer : Network :=
  {| axios_head := fun _ => Fulfilled (mkResponse 200 rangeHeaders []);
     axios_get := fun k _ _ => Fulfilled (mkResponse 206 ∅ (payload k));
     arrival := [3; 2; 1]%nat |}.

(** A server that cannot be reached. *)
Definition deadServer : Network :=
  {| axios_head := fun _ => Rejected (AxiosError "ENOTFOUND");
     axios_get := fun _ _ _ => Rejected (AxiosError "ENOTFOUND");
     arrival := [] |}.

(** ** The command *)

Module downloadCommand.

(** [interface DownloadArguments] *)
Record DownloadArguments := mkArguments {
  url : string;
  chunks : Z;
  limit : Z;
  output : string
}.

(** Effects of the command: those of [download], and writing a file. *)
Inductive effect :=
  | Net (e : event)
  | WriteFile (path : string) (content : Buffer).

(** [handler(args)]: download, then [afs.writeFile(args.output, content)];
    [writeFile path content] is how that call settles.  Where the
    download is [Unmodelled] so is the command: the model does not say
    what is written in such a run. *)
Definition handler (net : Network)
    (writeFile : string -> Buffer -> settled unit)
    (args : DownloadArguments) : list effect * outcome unit :=
  match download net (url args) (chunks args) (limit args) with
  | (t, Resolved content) =>
      ((Net <$> t) ++ [WriteFile (output args) content],
       match writeFile (output args) content with
       | Fulfilled _ => Resolved tt
       | Rejected e => Failed e
       end)
  | (t, Failed e) => (Net <$> t, Failed e)
  | (t, Pending) => (Net <$> t, Pending)
  | (t, Unmodelled) => (Net <$> t, Unmodelled)
  end.

(** The files a trace writes, in order. *)
Definition writes (trace : list effect) : list (string * Buffer) :=
  omap (fun e => match e with
                 | WriteFile path content => Some (path, content)
                 | Net _ => None
                 end) trace.

End downloadCommand.

(** * Properties *)

Lemma lookup_tail {A} (x : A) (l : list A) (i : nat) :
  (x :: l) !! S i = l !! i.
Proof. reflexivity. Qed.

Lemma pushRest_spec rounds chunkSize chunks offset :
  pushRest rounds chunkSize chunks offset
  = (chunks ++ restChunks rounds chunkSize offset,
     offset + Z.of_nat rounds * chunkSize).
Proof.
  revert chunks offset.
  induction rounds as [|k IH]; intros chunks o.
  - cbn [pushRest restChunks]. rewrite app_nil_r. f_equal. lia.
  - cbn [pushRest restChunks]. rewrite IH, <- app_assoc. cbn [app].
    f_equal. lia.
Qed.

Lemma capped_span a l : (if a >? l then l else a) - 1 = span a l.
Proof. unfold span. destruct (Z.gtb_spec a l); lia. Qed.

Lemma quot_sub_rem s n : n <> 0 -> Z.quot (s - Z.rem s n) n = Z.quot s n.
Proof.
  intros Hn. pose proof (Z.quot_rem' s n) as E.
  replace (s - Z.rem s n) with (Z.quot s n * n) by lia.
  apply Z.quot_mul; exact Hn.
Qed.

Lemma getChunks_closed a n l :
  n <> 0 ->
  getChunks a n l
  = {| size := firstSpan a n l; offset := 0 |}
      :: restChunks (Z.to_nat (n - 1)) (baseSpan a n l) (firstSpan a n l).
Proof.
  intros Hn. unfold getChunks. cbv zeta.
  rewrite pushRest_spec. cbn [fst app].
  rewrite capped_span, quot_sub_rem by exact Hn.
  reflexivity.
Qed.

Lemma span_split a n l :
  span a l = firstSpan a n l + (n - 1) * baseSpan a n l.
Proof.
  unfold firstSpan, baseSpan.
  pose proof (Z.quot_rem' (span a l) n). lia.
Qed.

Lemma restChunks_length k c o : length (restChunks k c o) = k.
Proof. revert o. induction k as [|k IH]; intros o; cbn; [|rewrite IH]; reflexivity. Qed.

Lemma restChunks_lookup k c o (i : nat) :
  (i < k)%nat ->
  restChunks k c o !! i
  = Some {| size := c - 1; offset := o + Z.of_nat i * c + 1 |}.
Proof.
  revert o i. induction k as [|k IH]; intros o i Hi; [lia|].
  destruct i as [|i]; cbn [restChunks].
  - cbn. do 2 f_equal. lia.
  - rewrite lookup_tail, IH by lia. do 2 f_equal. lia.
Qed.

Lemma restChunks_lookup_lt k c o (i : nat) chunk :
  restChunks k c o !! i = Some chunk -> (i < k)%nat.
Proof.
  intros H. apply lookup_lt_Some in H. rewrite restChunks_length in H. exact H.
Qed.

Lemma restChunks_bytes k c o :
  bytesCovered (restChunks k c o) = Z.of_nat k * c.
Proof.
  revert o. induction k as [|k IH]; intros o.
  - reflexivity.
  - cbn [restChunks bytesCovered foldr size].
    change (foldr _ 0 ?l) with (bytesCovered l). rewrite IH. lia.
Qed.

(** Signs of the quotient and remainder the planner computes. *)
Lemma span_signs a n l :
  0 < n ->
  (0 <= span a l ->
     0 <= baseSpan a n l /\ 0 <= Z.rem (span a l) n < n)
  /\ (span a l < 0 ->
     baseSpan a n l <= 0 /\ - n < Z.rem (span a l) n <= 0).
Proof.
  intros Hn. unfold baseSpan. split; intros Hs.
  - split.
    + apply Z.quot_pos; lia.
    + apply Z.rem_bound_pos; lia.
  - pose proof (Z.mul_quot_ge (span a l) n) as Q.
    pose proof (Z.rem_bound_pos_neg (span a l) n) as B.
    split; [nia | lia].
Qed.

(** The plan seen through its indices. *)
Lemma getChunks_lookup a n l (i : nat) chunk :
  0 < n ->
  getChunks a n l !! i = Some chunk ->
  Z.of_nat i < n
  /\ ((i = 0%nat /\ chunk = {| size := firstSpan a n l; offset := 0 |})
      \/ (exists j : nat, i = S j
          /\ chunk = {| size := baseSpan a n l - 1;
                        offset := firstSpan a n l
                                  + Z.of_nat j * baseSpan a n l + 1 |})).
Proof.
  intros Hn. rewrite getChunks_closed by lia.
  destruct i as [|j].
  - cbn. intros [= <-]. split; [lia|]. left. split; reflexivity.
  - rewrite lookup_tail. intros H. pose proof (restChunks_lookup_lt _ _ _ _ _ H) as Hj.
    rewrite restChunks_lookup in H by exact Hj.
    injection H as <-. split; [lia|]. right. exists j. split; reflexivity.
Qed.

Lemma getChunks_lookup_rest a n l (j : nat) :
  0 < n -> Z.of_nat j < n - 1 ->
  getChunks a n l !! S j
  = Some {| size := baseSpan a n l - 1;
            offset := firstSpan a n l + Z.of_nat j * baseSpan a n l + 1 |}.
Proof.
  intros Hn Hj. rewrite getChunks_closed by lia.
  rewrite lookup_tail. apply restChunks_lookup. lia.
Qed.

Lemma restChunks_increasing k c o :
  strictlyIncreasing (offset <$> restChunks k c o) = true
  <-> (k <= 1)%nat \/ 0 < c.
Proof.
  revert o. induction k as [|k IH]; intros o.
  - cbn. split; [intros _; left; lia | reflexivity].
  - destruct k as [|k].
    + cbn. split; [intros _; left; lia | reflexivity].
    + specialize (IH (o + c)).
      cbn [restChunks fmap list_fmap strictlyIncreasing offset] in *.
      rewrite andb_true_iff, Z.ltb_lt, IH. split.
      * intros [H _]. right. lia.
      * intros [H|H]; [lia|]. split; [lia|]. right. exact H.
Qed.

Lemma increasing_cons x l :
  strictlyIncreasing (x :: l) = true
  <-> match l with
      | [] => True
      | y :: _ => x < y /\ strictlyIncreasing l = true
      end.
Proof.
  destruct l as [|y l]; cbn [strictlyIncreasing].
  - split; [intros _; exact I | reflexivity].
  - rewrite andb_true_iff, Z.ltb_lt. reflexivity.
Qed.

(** Offsets of a plan: a start [x] below the first of the later chunks. *)
Lemma rest_after_increasing x k c o :
  x < o + 1 ->
  strictlyIncreasing (x :: (offset <$> restChunks k c o)) = true
  <-> (k <= 1)%nat \/ 0 < c.
Proof.
  intros Hx. rewrite increasing_cons.
  destruct k as [|k].
  - cbn. split; [intros _; left; lia | intros _; exact I].
  - rewrite <- (restChunks_increasing (S k) c o).
    cbn [restChunks fmap list_fmap offset]. split.
    + intros [_ H]. exact H.
    + intros H. split; [lia | exact H].
Qed.

(** The boolean test says that neighbours increase. *)
Lemma strictlyIncreasing_spec (l : list Z) :
  strictlyIncreasing l = true
  <-> forall (i : nat) x y, l !! i = Some x -> l !! S i = Some y -> x < y.
Proof.
  induction l as [|x l IH].
  - split; [intros _ i x y H; discriminate H | reflexivity].
  - rewrite increasing_cons. destruct l as [|y l].
    + split; [intros _ [|i] a b Ha Hb; discriminate Hb | intros _; exact I].
    + rewrite IH. split.
      * intros [Hxy Hl] [|i] a b Ha Hb.
        -- cbn in Ha, Hb. congruence.
        -- exact (Hl i a b Ha Hb).
      * intros H. split.
        -- exact (H 0%nat x y eq_refl eq_refl).
        -- intros i a b Ha Hb. exact (H (S i) a b Ha Hb).
Qed.

(** On valid inputs every number the planner computes has magnitude at
    most 2^53, so the program computes it without rounding: the span, the
    remainder, the difference that is divided, the quotient, the first
    size, the running offset after each round, and the offset, size and
    end of every planned chunk. *)
Lemma getChunks_exact a n l :
  validInputs a n l ->
  exactInteger (span a l)
  /\ exactInteger (Z.rem (span a l) n)
  /\ exactInteger (span a l - Z.rem (span a l) n)
  /\ exactInteger (baseSpan a n l)
  /\ exactInteger (firstSpan a n l)
  /\ (forall j : nat, Z.of_nat j <= n - 1 ->
        exactInteger (firstSpan a n l + Z.of_nat j * baseSpan a n l))
  /\ Forall exactChunk (getChunks a n l).
Proof.
  intros (Ha & Hl & Hn & _).
  unfold safeInteger, exactInteger, exactChunk, MAX_SAFE_INTEGER in *.
  pose proof (span_split a n l) as Hsplit.
  pose proof (Z.quot_rem' (span a l) n) as Hqr.
  fold (baseSpan a n l) in Hqr.
  assert (firstSpan a n l = baseSpan a n l + Z.rem (span a l) n) as Hfirst
    by reflexivity.
  assert (- 9007199254740992 <= span a l <= 9007199254740990) as Hspan
    by (unfold span; lia).
  destruct (span_signs a n l Hn) as [Hpos Hneg].
  set (L := span a l) in *. set (r := Z.rem L n) in *.
  set (c := baseSpan a n l) in *. set (f := firstSpan a n l) in *.
  assert ((0 <= L /\ 0 <= c /\ 0 <= r < n) \/ (L < 0 /\ c <= 0 /\ - n < r <= 0))
    as Hsign.
  { destruct (Z_lt_le_dec L 0) as [H|H]; [right | left];
      [destruct (Hneg H) | destruct (Hpos H)]; lia. }
  clear Hpos Hneg.
  assert (forall j : nat, Z.of_nat j <= n - 1 ->
            (0 <= L -> 0 <= f + Z.of_nat j * c <= L)
            /\ (L < 0 -> L <= f + Z.of_nat j * c <= 0)) as Hrun.
  { intros j Hj. destruct Hsign as [(HL & Hc & Hr)|(HL & Hc & Hr)];
      split; intros; try lia; nia. }
  assert (- 9007199254740992 <= f <= 9007199254740992) as Hf by nia.
  split; [lia|]. split; [lia|]. split; [nia|]. split; [nia|]. split; [lia|].
  split.
  - intros j Hj. destruct (Hrun j Hj). lia.
  - apply Forall_lookup. intros i chunk Hc.
    apply getChunks_lookup in Hc as [Hi [[_ ->]|[j [-> ->]]]]; [| |exact Hn];
      cbn [offset size]; fold c f;
      unfold exactInteger, MAX_SAFE_INTEGER.
    + lia.
    + destruct (Hrun j ltac:(lia)) as [H1 H2].
      destruct (Hrun (S j) ltac:(lia)) as [H3 H4].
      replace (Z.of_nat (S j)) with (Z.of_nat j + 1) in H3, H4 by lia.
      replace (f + Z.of_nat j * c + 1 + (c - 1))
        with (f + (Z.of_nat j + 1) * c) by lia.
      destruct Hsign as [(HL & Hc' & Hr)|(HL & Hc' & Hr)].
      * assert (0 <= c * (n - 1)) by nia. lia.
      * assert (c * (n - 2) <= 0) by nia. lia.
Qed.

(** ** The planner *)

(** C10.  For a positive chunk count the planner returns exactly that many
    chunks, whatever the content length and the limit are. *)
Theorem getChunks_length (contentLength numberOfChunks contentLengthLimit : Z) :
  0 < numberOfChunks ->
  Z.of_nat (length (getChunks contentLength numberOfChunks contentLengthLimit))
  = numberOfChunks.
Proof.
  intros Hn. rewrite getChunks_closed by lia.
  cbn [length]. rewrite restChunks_length. lia.
Qed.

Lemma getChunks_length_witness :
  0 < 7 /\ Z.of_nat (length (getChunks 3 7 100)) = 7.
Proof. split; [lia | apply (getChunks_length 3 7 100); lia]. Defined.

(** C2.  For valid inputs (safe integer lengths, a positive chunk count)
    the sizes plus one, summed over the planned chunks, give the effective
    length [min(totalLength, sizeLimit)]: a length above the limit is
    capped at the limit. *)
Theorem getChunks_bytesCovered (totalLength chunkCount sizeLimit : Z) :
  validInputs totalLength chunkCount sizeLimit ->
  bytesCovered (getChunks totalLength chunkCount sizeLimit)
  = Z.min totalLength sizeLimit.
Proof.
  intros (_ & _ & Hn & _). rewrite getChunks_closed by lia.
  cbn [bytesCovered foldr size].
  change (foldr _ 0 ?r) with (bytesCovered r).
  rewrite restChunks_bytes.
  pose proof (span_split totalLength chunkCount sizeLimit) as E.
  unfold span in E at 1. rewrite Z2Nat.id by lia. lia.
Qed.

Lemma getChunks_bytesCovered_witness :
  validInputs 2000000 4 1000000
  /\ bytesCovered (getChunks 2000000 4 1000000) = Z.min 2000000 1000000.
Proof.
  assert (validInputs 2000000 4 1000000) as Hvalid
    by (unfold validInputs, safeInteger, MAX_SAFE_INTEGER, MAX_ARRAY_LENGTH; lia).
  split; [exact Hvalid | apply (getChunks_bytesCovered 2000000 4 1000000 Hvalid)].
Defined.

(** The capped scenario of the specification, evaluated. *)
Example getChunks_capped :
  bytesCovered (getChunks 2000000 4 1000000) = 1000000.
Proof. vm_compute. reflexivity. Qed.

Section Tiling.
Variables totalLength chunkCount sizeLimit : Z.
Hypothesis chunkCount_pos : 0 < chunkCount.

Let chunks := getChunks totalLength chunkCount sizeLimit.
Let first := firstSpan totalLength chunkCount sizeLimit.
Let base := baseSpan totalLength chunkCount sizeLimit.
Let top := span totalLength sizeLimit.

Local Lemma top_split : top = first + (chunkCount - 1) * base.
Proof. apply span_split. Qed.

Local Lemma first_def : first = base + Z.rem top chunkCount.
Proof. reflexivity. Qed.

(** No gap: every byte index up to [top] lies in some chunk. *)
Lemma getChunks_no_gap b :
  0 <= b <= top -> exists (i : nat) chunk, chunks !! i = Some chunk /\ covers chunk b.
Proof.
  intros Hb. pose proof top_split as Hsplit.
  destruct (Z_le_gt_dec b first) as [Hle|Hgt].
  - exists 0%nat, {| size := first; offset := 0 |}. split.
    + subst chunks. rewrite getChunks_closed by lia. reflexivity.
    + unfold covers; cbn. lia.
  - assert (0 < base) as Hbase by nia.
    set (q := (b - first - 1) / base).
    assert (base * q <= b - first - 1 < base * (q + 1)) as Hq.
    { pose proof (Z.mul_div_le (b - first - 1) base Hbase).
      pose proof (Z.mul_succ_div_gt (b - first - 1) base Hbase).
      subst q. lia. }
    assert (0 <= q) as Hq0 by (subst q; apply Z.div_pos; lia).
    assert (q < chunkCount - 1) as Hq1 by nia.
    exists (S (Z.to_nat q)),
      {| size := base - 1; offset := first + Z.of_nat (Z.to_nat q) * base + 1 |}.
    split.
    + subst chunks. apply getChunks_lookup_rest; lia.
    + unfold covers; cbn. rewrite Z2Nat.id by lia. lia.
Qed.

(** No overlap: a byte index lies in at most one chunk. *)
Lemma getChunks_no_overlap (i j : nat) ci cj b :
  chunks !! i = Some ci -> chunks !! j = Some cj ->
  covers ci b -> covers cj b -> i = j.
Proof.
  intros Hi Hj Ci Cj.
  apply getChunks_lookup in Hi as [Hin Hi]; [|exact chunkCount_pos].
  apply getChunks_lookup in Hj as [Hjn Hj]; [|exact chunkCount_pos].
  fold first base in Hi, Hj. unfold covers in Ci, Cj.
  destruct Hi as [[-> ->]|[i' [-> ->]]], Hj as [[-> ->]|[j' [-> ->]]];
    cbn in Ci, Cj; [reflexivity|exfalso; nia|exfalso; nia|].
  f_equal. nia.
Qed.

(** Nothing outside: every covered byte index is between 0 and [top]. *)
Lemma getChunks_within (i : nat) chunk b :
  chunks !! i = Some chunk -> covers chunk b -> 0 <= b <= top.
Proof.
  intros Hi Ci.
  apply getChunks_lookup in Hi as [Hin Hi]; [|exact chunkCount_pos].
  fold first base in Hi. unfold covers in Ci.
  pose proof top_split as Hsplit. pose proof first_def as Hfirst.
  destruct (span_signs totalLength chunkCount sizeLimit chunkCount_pos)
    as [Hpos Hneg].
  fold top base in Hpos, Hneg.
  destruct Hi as [[-> ->]|[i' [-> ->]]]; cbn in Ci.
  - destruct (Z_lt_le_dec top 0) as [Hlt|Hge].
    + destruct (Hneg Hlt). nia.
    + destruct (Hpos Hge). nia.
  - destruct (Z_lt_le_dec top 0) as [Hlt|Hge].
    + destruct (Hneg Hlt). nia.
    + destruct (Hpos Hge). nia.
Qed.

(** Each chunk starts one byte past the end of the chunk before it. *)
Lemma getChunks_adjacent (i : nat) ci cj :
  chunks !! i = Some ci -> chunks !! S i = Some cj ->
  offset cj = offset ci + size ci + 1.
Proof.
  intros Hi Hj.
  apply getChunks_lookup in Hi as [Hin Hi]; [|exact chunkCount_pos].
  apply getChunks_lookup in Hj as [Hjn Hj]; [|exact chunkCount_pos].
  destruct Hj as [[Hj _]|[j' [Hj ->]]]; [discriminate|].
  injection Hj as <-.
  destruct Hi as [[-> ->]|[i' [-> ->]]]; cbn; lia.
Qed.

Lemma getChunks_first_last :
  (exists c0, chunks !! 0%nat = Some c0 /\ offset c0 = 0)
  /\ (exists cl, last chunks = Some cl /\ offset cl + size cl = top).
Proof.
  split.
  - exists {| size := first; offset := 0 |}. split; [|reflexivity].
    subst chunks. rewrite getChunks_closed by lia. reflexivity.
  - pose proof top_split as Hsplit.
    rewrite last_lookup.
    assert (length chunks = S (Z.to_nat (chunkCount - 1))) as ->.
    { subst chunks. rewrite getChunks_closed by lia.
      cbn [length]. rewrite restChunks_length. reflexivity. }
    cbn [Init.Nat.pred].
    destruct (Z.to_nat (chunkCount - 1)) as [|k] eqn:Hk.
    + exists {| size := first; offset := 0 |}. split.
      * subst chunks. rewrite getChunks_closed by lia. reflexivity.
      * assert (chunkCount - 1 = 0) as Hone by lia.
        rewrite Hone in Hsplit. cbn. lia.
    + eexists. split.
      * subst chunks. apply getChunks_lookup_rest; lia.
      * assert (chunkCount - 1 = Z.of_nat k + 1) as Hmore by lia.
        rewrite Hmore in Hsplit. cbn. fold first base. lia.
Qed.
End Tiling.

(** C1.  For valid inputs (safe integer lengths, a positive chunk
    count), with [effectiveLength =
    min(totalLength, sizeLimit)], the inclusive intervals [offset, offset
    + size] of the planned chunks tile [0, effectiveLength - 1]: every
    byte index of that interval lies in a chunk (no gap), no byte index
    lies in two chunks (no overlap), no chunk reaches outside the
    interval, and in list order the first chunk starts at 0, each chunk
    starts one past the end of the chunk before it and the last chunk
    ends at [effectiveLength - 1].  (A chunk of size -1, which the
    planner emits when there are fewer bytes than chunks, has an empty
    interval.) *)
Theorem getChunks_tiles (totalLength chunkCount sizeLimit : Z) :
  validInputs totalLength chunkCount sizeLimit ->
  let chunks := getChunks totalLength chunkCount sizeLimit in
  let effectiveLength := Z.min totalLength sizeLimit in
  (forall b, 0 <= b <= effectiveLength - 1 ->
     exists (i : nat) chunk, chunks !! i = Some chunk /\ covers chunk b)
  /\ (forall (i j : nat) ci cj b,
        chunks !! i = Some ci -> chunks !! j = Some cj ->
        covers ci b -> covers cj b -> i = j)
  /\ (forall (i : nat) chunk b,
        chunks !! i = Some chunk -> covers chunk b ->
        0 <= b <= effectiveLength - 1)
  /\ (exists c0, chunks !! 0%nat = Some c0 /\ offset c0 = 0)
  /\ (forall (i : nat) ci cj,
        chunks !! i = Some ci -> chunks !! S i = Some cj ->
        offset cj = offset ci + size ci + 1)
  /\ (exists cl, last chunks = Some cl
                 /\ offset cl + size cl = effectiveLength - 1).
Proof.
  intros (_ & _ & Hn & _) chunks effectiveLength.
  pose proof (getChunks_first_last totalLength chunkCount sizeLimit Hn)
    as [Hfirst Hlast].
  repeat split.
  - apply getChunks_no_gap; exact Hn.
  - apply getChunks_no_overlap; exact Hn.
  - eapply (getChunks_within totalLength chunkCount sizeLimit Hn); eassumption.
  - eapply (getChunks_within totalLength chunkCount sizeLimit Hn); eassumption.
  - exact Hfirst.
  - apply getChunks_adjacent; exact Hn.
  - exact Hlast.
Qed.

Lemma getChunks_tiles_witness :
  validInputs 1000 4 10000
  /\ (forall b, 0 <= b <= Z.min 1000 10000 - 1 ->
        exists (i : nat) chunk,
          getChunks 1000 4 10000 !! i = Some chunk /\ covers chunk b).
Proof.
  assert (validInputs 1000 4 10000) as Hvalid
    by (unfold validInputs, safeInteger, MAX_SAFE_INTEGER, MAX_ARRAY_LENGTH; lia).
  split; [exact Hvalid | apply (getChunks_tiles 1000 4 10000 Hvalid)].
Defined.

(** With two bytes in three chunks the planner repeats an offset: the
    offsets are 0, 2, 2, so they are not strictly increasing. *)
Lemma getChunks_offsets_repeat :
  offset <$> getChunks 2 3 10 = [0; 2; 2]
  /\ ~ (0 < 3 ->
        strictlyIncreasing (offset <$> getChunks 2 3 10) = true
        /\ (offset <$> getChunks 2 3 10) !! 0%nat = Some 0).
Proof.
  split; [vm_compute; reflexivity|].
  intros H. destruct H as [H _]; [lia|].
  vm_compute in H. discriminate H.
Qed.

(** C3.  For a positive chunk count chunk 0 has offset 0; and
    when the effective length [min(totalLength, sizeLimit)] is at least 1,
    the offsets are strictly increasing exactly when the chunk count is at
    most 2 or is below the effective length. *)
Theorem getChunks_offsets (totalLength chunkCount sizeLimit : Z) :
  0 < chunkCount ->
  let offsets := offset <$> getChunks totalLength chunkCount sizeLimit in
  offsets !! 0%nat = Some 0
  /\ (1 <= Z.min totalLength sizeLimit ->
      (strictlyIncreasing offsets = true
       <-> chunkCount <= 2 \/ chunkCount < Z.min totalLength sizeLimit)).
Proof.
  intros Hn offsets. subst offsets.
  rewrite getChunks_closed by lia. split; [reflexivity|].
  intros Heff.
  set (base := baseSpan totalLength chunkCount sizeLimit).
  set (first := firstSpan totalLength chunkCount sizeLimit).
  destruct (span_signs totalLength chunkCount sizeLimit Hn) as [Hpos _].
  destruct Hpos as [Hbase Hrem]; [unfold span; lia|].
  fold base in Hbase.
  assert (first = base + Z.rem (span totalLength sizeLimit) chunkCount)
    as Hfirst by reflexivity.
  assert (span totalLength sizeLimit
          = base * chunkCount + Z.rem (span totalLength sizeLimit) chunkCount)
    as Hsplit.
  { pose proof (Z.quot_rem' (span totalLength sizeLimit) chunkCount).
    subst base. unfold baseSpan. lia. }
  assert (0 < base <-> chunkCount < Z.min totalLength sizeLimit) as Hiff.
  { unfold span in Hsplit, Hrem. split; intros; nia. }
  change (strictlyIncreasing
            (0 :: (offset <$> restChunks (Z.to_nat (chunkCount - 1)) base first))
          = true <-> chunkCount <= 2 \/ chunkCount < Z.min totalLength sizeLimit).
  rewrite rest_after_increasing by lia. rewrite Hiff. split.
  - intros [H|H]; [left; lia | right; exact H].
  - intros [H|H]; [left; lia | right; exact H].
Qed.

Lemma getChunks_offsets_witness :
  0 < 4 /\ 1 <= Z.min 1000 10000
  /\ strictlyIncreasing (offset <$> getChunks 1000 4 10000) = true.
Proof.
  assert (0 < 4) as Hn by lia.
  assert (1 <= Z.min 1000 10000) as Heff by lia.
  split; [exact Hn|]. split; [exact Heff|].
  destruct (getChunks_offsets 1000 4 10000 Hn) as [_ Hiff].
  apply (Hiff Heff). right. lia.
Defined.

(** C4.  The two scenarios of the specification: 1000 bytes in 4 chunks
    under a limit of 10000, and 100 bytes in 3 chunks under a limit of
    1000, with the ranges as [formatChunk] prints them. *)
Theorem getChunks_scenarios :
  getChunks 1000 4 10000
  = [ {| size := 252; offset := 0 |}; {| size := 248; offset := 253 |};
      {| size := 248; offset := 502 |}; {| size := 248; offset := 751 |} ]
  /\ formatChunk <$> getChunks 1000 4 10000
     = ["0-252"; "253-501"; "502-750"; "751-999"]
  /\ formatChunk <$> getChunks 100 3 1000 = ["0-33"; "34-66"; "67-99"].
Proof. repeat split; vm_compute; reflexivity. Qed.

(** ** The capability check *)

Lemma bind_resolved {A B} t (a : A) (f : A -> Async B) :
  bind (t, Resolved a) f = (t ++ fst (f a), snd (f a)).
Proof. unfold bind. destruct (f a). reflexivity. Qed.

Lemma acceptsRanges_run (h : gmap string string) :
  acceptsRanges h
  = ([Log (display (h !! "accept-ranges"))],
     Resolved (negb (bool_decide (h !! "accept-ranges" = Some "none")
                     || bool_decide (h !! "accept-ranges" = None)))).
Proof. reflexivity. Qed.

(** C5.  For every header map the capability check resolves to a boolean,
    which is [false] exactly when the [accept-ranges] header is absent or
    is the string [none], and [true] for every other value. *)
Theorem acceptsRanges_spec (h : gmap string string) :
  exists supported : bool,
    snd (acceptsRanges h) = Resolved supported
    /\ (supported = false
        <-> h !! "accept-ranges" = None \/ h !! "accept-ranges" = Some "none")
    /\ (supported = true
        <-> exists v, h !! "accept-ranges" = Some v /\ v <> "none").
Proof.
  rewrite acceptsRanges_run. cbn [snd]. eexists. split; [reflexivity|].
  destruct (h !! "accept-ranges") as [v|] eqn:Hv.
  - destruct (decide (v = "none")) as [->|Hne].
    + rewrite bool_decide_eq_true_2 by reflexivity. cbn. split.
      * split; [intros _; right; reflexivity | reflexivity].
      * split; [discriminate | intros (w & [= <-] & Hw); congruence].
    + rewrite bool_decide_eq_false_2 by congruence.
      rewrite bool_decide_eq_false_2 by discriminate. cbn. split.
      * split; [discriminate | intros [H|H]; congruence].
      * split; [intros _; exists v; split; [reflexivity | exact Hne] | reflexivity].
  - rewrite bool_decide_eq_false_2 by discriminate.
    rewrite bool_decide_eq_true_2 by reflexivity. cbn. split.
    + split; [intros _; left; reflexivity | reflexivity].
    + split; [discriminate | intros (w & Hw & _); discriminate].
Qed.

Example acceptsRanges_bytes :
  snd (acceptsRanges {[ "accept-ranges" := "bytes" ]}) = Resolved true.
Proof. vm_compute. reflexivity. Qed.

(** ** Promise.all *)

Lemma collect_filled {A} (vs : list A) : collect (Some <$> vs) = Some vs.
Proof.
  induction vs as [|v vs IH]; [reflexivity|].
  cbn [fmap list_fmap collect].
  change (list_fmap A (option A) Some vs) with (Some <$> vs).
  rewrite IH. reflexivity.
Qed.

(** Once every promise fulfils, the values array depends on the slots
    only: a slot is either already filled with its promise's value or its
    index is still to arrive. *)
Lemma settle_fulfilled {A} (vs : list A) (arrival : list nat) :
  forall values : list (option A),
    length values = length vs ->
    (forall (i : nat) v, vs !! i = Some v ->
       values !! i = Some (Some v) \/ i ∈ arrival) ->
    settle values
      (omap (fun index => (fun p => (index, p)) <$> (Fulfilled <$> vs) !! index)
            arrival)
    = Resolved vs.
Proof.
  induction arrival as [|k arrival IH]; intros values Hlen Hslots.
  - cbn [omap list_omap settle].
    assert (values = Some <$> vs) as ->.
    { apply list_eq. intros i. rewrite list_lookup_fmap.
      destruct (vs !! i) as [v|] eqn:Hv.
      - destruct (Hslots i v Hv) as [H|H]; [exact H|].
        apply elem_of_nil in H. destruct H.
      - apply lookup_ge_None. apply lookup_ge_None in Hv. lia. }
    rewrite collect_filled. reflexivity.
  - cbn [omap list_omap].
    change (list_omap _ _ ?f arrival) with (omap f arrival).
    rewrite list_lookup_fmap.
    destruct (vs !! k) as [vk|] eqn:Hk; cbn [fmap option_fmap option_map].
    + cbn [settle]. apply IH.
      * rewrite length_insert. exact Hlen.
      * intros i v Hv. destruct (decide (i = k)) as [->|Hne].
        -- left. rewrite list_lookup_insert_eq.
           ++ congruence.
           ++ rewrite Hlen. eapply lookup_lt_Some. exact Hk.
        -- rewrite list_lookup_insert_ne by congruence.
           destruct (Hslots i v Hv) as [H|H]; [left; exact H|].
           apply elem_of_cons in H as [H|H]; [congruence | right; exact H].
    + apply IH; [exact Hlen|].
      intros i v Hv. destruct (Hslots i v Hv) as [H|H]; [left; exact H|].
      apply elem_of_cons in H as [H|H]; [congruence | right; exact H].
Qed.

(** Whatever the order in which the promises fulfil, [Promise.all]
    resolves with their values in the order of the promises. *)
Lemma Promise_all_fulfilled {A} (vs : list A) (arrival : list nat) :
  arrival ≡ₚ seq 0 (length vs) ->
  Promise_all arrival (Fulfilled <$> vs) = Resolved vs.
Proof.
  intros Hperm. unfold Promise_all. rewrite length_fmap.
  apply settle_fulfilled.
  - apply length_replicate.
  - intros i v Hv. right. rewrite Hperm. apply elem_of_seq.
    apply lookup_lt_Some in Hv. lia.
Qed.

(** A rejection that arrives before anything else rejects the whole. *)
Lemma settle_rejected {A} (values : list (option A)) index e rest :
  settle values ((index, Rejected e) :: rest) = Failed e.
Proof. reflexivity. Qed.

(** ** The download pipeline *)

Lemma fetchAll_trace net url chunks :
  fst (fetchAll net url chunks) = concat (fetchEvents url <$> chunks).
Proof.
  unfold fetchAll. cbn [fst]. f_equal.
  rewrite fmap_imap, <- imap_const. apply imap_ext. reflexivity.
Qed.

Lemma getRequests_fetchEvents url chunks :
  getRequests (concat (fetchEvents url <$> chunks))
  = (fun chunk => (url, "bytes=" +:+ formatChunk chunk)) <$> chunks.
Proof.
  induction chunks as [|c chunks IH]; [reflexivity|].
  cbn. f_equal. exact IH.
Qed.

Lemma fetchAll_fulfilled net url chunks (answer : nat -> Response) :
  arrival net ≡ₚ seq 0 (length chunks) ->
  (forall (k : nat) chunk, chunks !! k = Some chunk ->
     axios_get net k url ("bytes=" +:+ formatChunk chunk) = Fulfilled (answer k)) ->
  snd (fetchAll net url chunks)
  = Resolved (imap (fun k chunk => {| chunk := chunk; response := answer k |}) chunks).
Proof.
  intros Hperm Hanswer. unfold fetchAll. cbn [snd].
  rewrite fmap_imap.
  rewrite (imap_ext _
    (fun k => Fulfilled
              ∘ (fun chunk => {| chunk := chunk; response := answer k |}))).
  - rewrite <- (fmap_imap _ Fulfilled).
    apply Promise_all_fulfilled. rewrite length_imap. exact Hperm.
  - intros k c Hc. cbn. rewrite (Hanswer k c Hc). reflexivity.
Qed.

Section Download.
Variable net : Network.
Variable url : string.
Variables numberOfChunks limit : Z.
Variable headResponse : Response.
Variable contentLength : Z.

Hypothesis head_fulfilled : axios_head net url = Fulfilled headResponse.

(** A run that passes the capability check and reads an integer
    content length: the three events before the fetches, the fetches,
    then validation and reassembly. *)
Lemma download_supported :
  (exists v, headers headResponse !! "accept-ranges" = Some v /\ v <> "none") ->
  ToNumber (headers headResponse !! "content-length") = Some contentLength ->
  download net url numberOfChunks limit
  = ([HeadRequest url;
      Log (display (headers headResponse !! "accept-ranges"));
      Log ("content-length: "
           +:+ display (headers headResponse !! "content-length"))]
     ++ fst (fetchAll net url (getChunks contentLength numberOfChunks limit)),
     validated
       (snd (fetchAll net url (getChunks contentLength numberOfChunks limit)))).
Proof.
  intros (v & Hv & Hne) Hlen.
  unfold download. rewrite head_fulfilled. cbn [await].
  rewrite bind_resolved, acceptsRanges_run, bind_resolved. cbn [fst snd].
  rewrite Hv.
  rewrite bool_decide_eq_false_2 by congruence.
  rewrite bool_decide_eq_false_2 by discriminate.
  cbn [orb negb]. rewrite Hlen.
  unfold console_log. rewrite bind_resolved.
  destruct (fetchAll net url (getChunks contentLength numberOfChunks limit))
    as [t [responses|e| |]]; cbn [bind fst snd validated]; try reflexivity.
  unfold invalidError.
  destruct (negb (length (List.filter isInvalid responses) =? 0)%nat);
    cbn; rewrite ?app_nil_r; reflexivity.
Qed.

(** A run that fails the capability check. *)
Lemma download_unsupported_run :
  headers headResponse !! "accept-ranges" = None
  \/ headers headResponse !! "accept-ranges" = Some "none" ->
  download net url numberOfChunks limit
  = ([HeadRequest url;
      Log (display (headers headResponse !! "accept-ranges"))],
     Failed (Error (url +:+ " does not support partial requests."))).
Proof.
  intros Hno.
  unfold download. rewrite head_fulfilled. cbn [await].
  rewrite bind_resolved, acceptsRanges_run, bind_resolved. cbn [fst snd].
  destruct Hno as [-> | ->].
  - rewrite (bool_decide_eq_true_2 (None = None)) by reflexivity.
    rewrite orb_true_r. reflexivity.
  - rewrite bool_decide_eq_true_2 by reflexivity. reflexivity.
Qed.

End Download.

Lemma Array_toString_length (l l' : list ChunkResponse) :
  length l = length l' -> Array_toString l = Array_toString l'.
Proof.
  intros Hlen. unfold Array_toString. f_equal.
  revert l' Hlen. induction l as [|x l IH]; intros [|y l'] Hlen;
    try discriminate; [reflexivity|].
  cbn. f_equal. apply IH. cbn in Hlen. lia.
Qed.

Lemma filter_isInvalid_nil (responses : list ChunkResponse) :
  List.filter isInvalid responses = []
  <-> Forall (fun r => status (response r) = 206) responses.
Proof.
  induction responses as [|r rs IH].
  - split; [intros _; constructor | reflexivity].
  - cbn [List.filter]. unfold isInvalid at 1.
    destruct (Z.eqb_spec (status (response r)) 206) as [E|E]; cbn [negb].
    + rewrite IH. split.
      * intros H. constructor; assumption.
      * intros H. inversion H; assumption.
    + split; [discriminate|]. intros H. inversion H; contradiction.
Qed.

(** Validation fails exactly when some response is not a 206; otherwise
    the payloads are concatenated in the order of the responses. *)
Lemma validated_spec (responses : list ChunkResponse) :
  (Forall (fun r => status (response r) = 206) responses ->
     validated (Resolved responses)
     = Resolved (concat ((fun r => data (response r)) <$> responses)))
  /\ (~ Forall (fun r => status (response r) = 206) responses ->
     validated (Resolved responses)
     = Failed (invalidError (List.filter isInvalid responses))).
Proof.
  cbn [validated]. rewrite <- filter_isInvalid_nil.
  destruct (List.filter isInvalid responses) as [|r rs]; cbn.
  - split; [reflexivity | intros H; destruct H; reflexivity].
  - split; [discriminate | reflexivity].
Qed.

(** C6.  When the probed server carries no [accept-ranges] header, or the
    value [none], [download] fails with its error about partial requests;
    all it has done by then is the one HEAD request and the one log line
    of the capability check: the trace holds no range request and no
    other fetch. *)
Theorem download_unsupported net url (numberOfChunks limit : Z) headResponse :
  axios_head net url = Fulfilled headResponse ->
  headers headResponse !! "accept-ranges" = None
  \/ headers headResponse !! "accept-ranges" = Some "none" ->
  snd (download net url numberOfChunks limit)
  = Failed (Error (url +:+ " does not support partial requests."))
  /\ fst (download net url numberOfChunks limit)
     = [HeadRequest url;
        Log (display (headers headResponse !! "accept-ranges"))]
  /\ getRequests (fst (download net url numberOfChunks limit)) = [].
Proof.
  intros Hhead Hno.
  rewrite (download_unsupported_run net url numberOfChunks limit
             headResponse Hhead Hno).
  repeat split; reflexivity.
Qed.

Lemma download_unsupported_witness :
  snd (download plainServer "http://host/file" 4 4194304)
  = Failed (Error ("http://host/file" +:+ " does not support partial requests.")).
Proof.
  apply (download_unsupported plainServer "http://host/file" 4 4194304
           (mkResponse 200 {[ "content-length" := "1000" ]} [])).
  - reflexivity.
  - left. vm_compute. reflexivity.
Defined.

(** C8.  The range header of each chunk is [bytes=<start>-<end>] with
    [start] the chunk's offset and [end] its offset plus its size, both in
    decimal: the fetches of any list of chunks whose numbers are exact
    issue exactly these requests, one per chunk and in chunk order, and
    so does a download that passes the capability check and plans from
    valid inputs, for the chunks it planned. *)
Theorem download_range_headers net url (numberOfChunks limit : Z)
    headResponse contentLength :
  let rangeOf := fun chunk : Chunk =>
    (url, "bytes=" +:+ pretty (offset chunk) +:+ "-"
          +:+ pretty (offset chunk + size chunk)) in
  (forall chunks,
     Forall exactChunk chunks ->
     getRequests (fst (fetchAll net url chunks)) = rangeOf <$> chunks)
  /\ (axios_head net url = Fulfilled headResponse ->
      (exists v, headers headResponse !! "accept-ranges" = Some v
                 /\ v <> "none") ->
      ToNumber (headers headResponse !! "content-length") = Some contentLength ->
      validInputs contentLength numberOfChunks limit ->
      Forall exactChunk (getChunks contentLength numberOfChunks limit)
      /\ getRequests (fst (download net url numberOfChunks limit))
         = rangeOf <$> getChunks contentLength numberOfChunks limit).
Proof.
  intros rangeOf. split.
  - intros chunks _. rewrite fetchAll_trace. apply getRequests_fetchEvents.
  - intros Hhead Hranges Hlen Hvalid. split; [apply getChunks_exact, Hvalid|].
    rewrite (download_supported net url numberOfChunks limit headResponse
               contentLength Hhead Hranges Hlen).
    cbn [fst app getRequests omap list_omap].
    change (list_omap _ _ ?f ?t) with (omap f t).
    fold (getRequests
            (fst (fetchAll net url (getChunks contentLength numberOfChunks limit)))).
    rewrite fetchAll_trace. apply getRequests_fetchEvents.
Qed.

Lemma download_range_headers_witness :
  validInputs 1000 4 10000
  /\ getRequests (fst (download (server (fun _ => 206)) "http://host/file" 4 10000))
     = [ ("http://host/file", "bytes=0-252"); ("http://host/file", "bytes=253-501");
         ("http://host/file", "bytes=502-750"); ("http://host/file", "bytes=751-999") ].
Proof.
  assert (validInputs 1000 4 10000) as Hvalid
    by (unfold validInputs, safeInteger, MAX_SAFE_INTEGER, MAX_ARRAY_LENGTH; lia).
  split; [exact Hvalid|].
  destruct (download_range_headers (server (fun _ => 206)) "http://host/file"
              4 10000 (mkResponse 200 rangeHeaders []) 1000) as [_ H].
  destruct H as [_ H].
  - reflexivity.
  - exists "bytes". split; [vm_compute; reflexivity | discriminate].
  - vm_compute. reflexivity.
  - exact Hvalid.
  - rewrite H. vm_compute. reflexivity.
Defined.

(** C9.  For a plan from valid inputs, whatever the order in which the
    responses arrive, the fetches resolve with, at each index, the chunk
    planned at that index together with the response to that chunk's
    request; and when every response is a 206, [download] resolves with
    the payloads concatenated in chunk order, chunk 0 first. *)
Theorem download_order net url (numberOfChunks limit : Z)
    headResponse contentLength (answer : nat -> Response) :
  let chunks := getChunks contentLength numberOfChunks limit in
  axios_head net url = Fulfilled headResponse ->
  (exists v, headers headResponse !! "accept-ranges" = Some v /\ v <> "none") ->
  ToNumber (headers headResponse !! "content-length") = Some contentLength ->
  validInputs contentLength numberOfChunks limit ->
  arrival net ≡ₚ seq 0 (length chunks) ->
  (forall (k : nat) chunk, chunks !! k = Some chunk ->
     axios_get net k url ("bytes=" +:+ formatChunk chunk) = Fulfilled (answer k)) ->
  snd (fetchAll net url chunks)
  = Resolved (imap (fun k chunk => {| chunk := chunk; response := answer k |})
                   chunks)
  /\ ((forall k : nat, (k < length chunks)%nat -> status (answer k) = 206) ->
      snd (download net url numberOfChunks limit)
      = Resolved (concat (imap (fun k _ => data (answer k)) chunks))).
Proof.
  intros chunks Hhead Hranges Hlen _ Hperm Hanswer.
  pose proof (fetchAll_fulfilled net url chunks answer Hperm Hanswer) as Hall.
  split; [exact Hall|].
  intros Hstatus.
  rewrite (download_supported net url numberOfChunks limit headResponse
             contentLength Hhead Hranges Hlen).
  cbn [snd]. fold chunks. rewrite Hall.
  destruct (validated_spec
              (imap (fun k chunk => {| chunk := chunk; response := answer k |})
                    chunks)) as [Hok _].
  rewrite Hok.
  - rewrite fmap_imap. reflexivity.
  - apply Forall_lookup. intros k r Hr.
    apply list_lookup_imap_Some in Hr as (c & Hc & ->). cbn.
    apply Hstatus. eapply lookup_lt_Some. exact Hc.
Qed.

(** The last request answered first, the first one last: chunk 0's byte
    still comes first. *)
Lemma download_order_witness :
  snd (download (server (fun _ => 206)) "http://host/file" 4 10000)
  = Resolved [x00; x01; x02; x03].
Proof.
  destruct (download_order (server (fun _ => 206)) "http://host/file" 4 10000
              (mkResponse 200 rangeHeaders []) 1000
              (fun k => mkResponse 206 ∅ (payload k))) as [_ H].
  - reflexivity.
  - exists "bytes". split; [vm_compute; reflexivity | discriminate].
  - vm_compute. reflexivity.
  - unfold validInputs, safeInteger, MAX_SAFE_INTEGER, MAX_ARRAY_LENGTH. lia.
  - change ([3; 2; 1; 0]%nat ≡ₚ [0; 1; 2; 3]%nat).
    apply (bool_decide_unpack _). vm_compute. exact I.
  - intros k chunk _. reflexivity.
  - rewrite H; [vm_compute; reflexivity|]. intros k _. reflexivity.
Defined.

(** C7.  Four range requests of which two are answered with a 200:
    whether these are the first two or the last two, [download] fails
    with one and the same error, whose message holds the text
    [[object Object]] once per offending response and names neither its
    range nor its status. *)
Theorem download_invalid_unnamed :
  snd (download (server firstTwoInvalid) "http://host/file" 4 10000)
  = Failed (Error ("received invalid responses:" +:+ newline
                   +:+ " [object Object],[object Object]"))
  /\ snd (download (server lastTwoInvalid) "http://host/file" 4 10000)
     = snd (download (server firstTwoInvalid) "http://host/file" 4 10000).
Proof. split; vm_compute; reflexivity. Qed.

(** The error of a failed validation depends on the number of offending
    responses only. *)
Lemma invalidError_count (l l' : list ChunkResponse) :
  length l = length l' -> invalidError l = invalidError l'.
Proof.
  intros Hlen. unfold invalidError.
  rewrite (Array_toString_length l l' Hlen). reflexivity.
Qed.

(** * Further properties of the planner *)

(** X1.  The plan depends on the content length and the limit through their
    minimum only: a limit above the content length changes nothing, and
    the two may be swapped. *)
Theorem getChunks_min (a l a' l' n : Z) :
  n <> 0 ->
  Z.min a l = Z.min a' l' -> getChunks a n l = getChunks a' n l'.
Proof.
  intros _ Hmin. unfold getChunks. cbv zeta.
  rewrite !capped_span. unfold span. rewrite Hmin. reflexivity.
Qed.

Lemma getChunks_min_witness :
  getChunks 1000 4 10000 = getChunks 5000 4 1000.
Proof. apply (getChunks_min 1000 10000 5000 1000 4); [lia | reflexivity]. Defined.

(** X2.  For valid inputs all chunks after the first have one and the
    same size, and when the effective length is at least 1 the first
    chunk is larger than each of them by at least 1 and at most the chunk
    count. *)
Theorem getChunks_balanced (totalLength chunkCount sizeLimit : Z) :
  validInputs totalLength chunkCount sizeLimit ->
  let chunks := getChunks totalLength chunkCount sizeLimit in
  (forall (i j : nat) ci cj,
     chunks !! S i = Some ci -> chunks !! S j = Some cj -> size ci = size cj)
  /\ (1 <= Z.min totalLength sizeLimit ->
      forall c0 (i : nat) ci,
        chunks !! 0%nat = Some c0 -> chunks !! S i = Some ci ->
        1 <= size c0 - size ci <= chunkCount).
Proof.
  intros (_ & _ & Hn & _) chunks. subst chunks. split.
  - intros i j ci cj Hi Hj.
    apply getChunks_lookup in Hi as [_ [[Hi _]|[i' [_ ->]]]]; [discriminate| |exact Hn].
    apply getChunks_lookup in Hj as [_ [[Hj _]|[j' [_ ->]]]]; [discriminate| |exact Hn].
    reflexivity.
  - intros Heff c0 i ci H0 Hi.
    apply getChunks_lookup in H0 as [_ [[_ ->]|[j [H0 _]]]]; [|discriminate|exact Hn].
    apply getChunks_lookup in Hi as [_ [[Hi _]|[i' [_ ->]]]]; [discriminate| |exact Hn].
    destruct (span_signs totalLength chunkCount sizeLimit Hn) as [Hpos _].
    destruct Hpos as [_ Hrem]; [unfold span; lia|].
    cbn [size]. unfold firstSpan. lia.
Qed.

Lemma getChunks_balanced_witness :
  validInputs 1000 4 10000 /\ 1 <= Z.min 1000 10000
  /\ 1 <= size {| size := 252; offset := 0 |}
          - size {| size := 248; offset := 253 |} <= 4.
Proof.
  assert (validInputs 1000 4 10000) as Hvalid
    by (unfold validInputs, safeInteger, MAX_SAFE_INTEGER, MAX_ARRAY_LENGTH; lia).
  assert (1 <= Z.min 1000 10000) as Heff by lia.
  split; [exact Hvalid|]. split; [exact Heff|].
  destruct (getChunks_balanced 1000 4 10000 Hvalid) as [_ H].
  apply (H Heff {| size := 252; offset := 0 |} 0%nat
           {| size := 248; offset := 253 |}); vm_compute; reflexivity.
Defined.

(** X3.  When the effective length is at least 1, no planned offset is
    negative, and no planned size is negative exactly when there is one
    chunk or there are fewer chunks than bytes; otherwise the chunk at
    index 1 has size -1, a range whose end is below its start. *)
Theorem getChunks_wellformed (totalLength chunkCount sizeLimit : Z) :
  0 < chunkCount -> 1 <= Z.min totalLength sizeLimit ->
  let chunks := getChunks totalLength chunkCount sizeLimit in
  Forall (fun chunk => 0 <= offset chunk) chunks
  /\ (Forall (fun chunk => 0 <= size chunk) chunks
      <-> chunkCount = 1 \/ chunkCount < Z.min totalLength sizeLimit)
  /\ (~ (chunkCount = 1 \/ chunkCount < Z.min totalLength sizeLimit) ->
      exists chunk, chunks !! 1%nat = Some chunk /\ size chunk = -1).
Proof.
  intros Hn Heff chunks. subst chunks.
  destruct (span_signs totalLength chunkCount sizeLimit Hn) as [Hpos _].
  destruct Hpos as [Hbase Hrem]; [unfold span; lia|].
  pose proof (Z.quot_rem' (span totalLength sizeLimit) chunkCount) as Hsplit.
  fold (baseSpan totalLength chunkCount sizeLimit) in Hsplit.
  assert (0 < baseSpan totalLength chunkCount sizeLimit
          <-> chunkCount < Z.min totalLength sizeLimit) as Hiff.
  { unfold span in Hsplit, Hrem. split; intros; nia. }
  split; [|split].
  - apply Forall_lookup. intros i c Hc.
    apply getChunks_lookup in Hc as [_ [[_ ->]|[j [_ ->]]]]; [| |exact Hn];
      cbn [offset]; unfold firstSpan; nia.
  - rewrite Forall_lookup. split.
    + intros Hall.
      destruct (Z.eq_dec chunkCount 1) as [H1|H1]; [left; exact H1|right].
      apply Hiff.
      assert (0 <= baseSpan totalLength chunkCount sizeLimit - 1); [|lia].
      apply (Hall 1%nat {| size := baseSpan totalLength chunkCount sizeLimit - 1;
                           offset := firstSpan totalLength chunkCount sizeLimit
                                     + Z.of_nat 0 * baseSpan totalLength chunkCount sizeLimit
                                     + 1 |}).
      apply getChunks_lookup_rest; lia.
    + intros Hcase i c Hc.
      apply getChunks_lookup in Hc as [Hi [[_ ->]|[j [-> ->]]]]; [| |exact Hn];
        cbn [size].
      * unfold firstSpan. lia.
      * destruct Hcase as [H1|Hlt]; [lia|]. apply Hiff in Hlt. lia.
  - intros Hnot.
    assert (baseSpan totalLength chunkCount sizeLimit = 0) as Hzero by lia.
    eexists. split.
    + apply (getChunks_lookup_rest totalLength chunkCount sizeLimit 0%nat); lia.
    + cbn [size]. lia.
Qed.

Lemma getChunks_wellformed_witness :
  Forall (fun chunk => 0 <= offset chunk) (getChunks 1000 4 10000)
  /\ ~ Forall (fun chunk => 0 <= size chunk) (getChunks 4 4 10)
  /\ exists chunk, getChunks 4 4 10 !! 1%nat = Some chunk /\ size chunk = -1.
Proof.
  split; [|split].
  - apply (getChunks_wellformed 1000 4 10000); lia.
  - intros H. apply (getChunks_wellformed 4 4 10) in H; lia.
  - apply (getChunks_wellformed 4 4 10); lia.
Defined.

(** X4.  When the effective length is at least 1 the plan is sorted by offset:
    a later chunk never starts before an earlier one. *)
Theorem getChunks_sorted (totalLength chunkCount sizeLimit : Z) :
  0 < chunkCount -> 1 <= Z.min totalLength sizeLimit ->
  forall (i j : nat) ci cj,
    (i <= j)%nat ->
    getChunks totalLength chunkCount sizeLimit !! i = Some ci ->
    getChunks totalLength chunkCount sizeLimit !! j = Some cj ->
    offset ci <= offset cj.
Proof.
  intros Hn Heff i j ci cj Hij Hi Hj.
  destruct (span_signs totalLength chunkCount sizeLimit Hn) as [Hpos _].
  destruct Hpos as [Hbase Hrem]; [unfold span; lia|].
  apply getChunks_lookup in Hi as [_ [[-> ->]|[i' [-> ->]]]]; [| |exact Hn];
    apply getChunks_lookup in Hj as [_ [[-> ->]|[j' [-> ->]]]];
    try exact Hn; cbn [offset]; unfold firstSpan; try lia; nia.
Qed.

Lemma getChunks_sorted_witness :
  0 < 3 /\ 1 <= Z.min 2 10
  /\ offset {| size := 1; offset := 0 |} <= offset {| size := -1; offset := 2 |}.
Proof.
  assert (0 < 3) as Hn by lia.
  assert (1 <= Z.min 2 10) as Heff by lia.
  split; [exact Hn|]. split; [exact Heff|].
  apply (getChunks_sorted 2 3 10 Hn Heff 0%nat 2%nat);
    [lia | vm_compute; reflexivity | vm_compute; reflexivity].
Defined.

(** X5.  A negative chunk count gives a plan of one chunk, at offset 0: the
    rounds that push the later chunks do not run. *)
Theorem getChunks_negative_count (contentLength numberOfChunks contentLengthLimit : Z) :
  numberOfChunks < 0 ->
  exists chunk,
    getChunks contentLength numberOfChunks contentLengthLimit = [chunk]
    /\ offset chunk = 0.
Proof.
  intros Hn. rewrite getChunks_closed by lia.
  replace (Z.to_nat (numberOfChunks - 1)) with 0%nat by lia.
  eexists. split; reflexivity.
Qed.

Lemma getChunks_negative_count_witness :
  exists chunk, getChunks 1000 (-4) 10000 = [chunk] /\ offset chunk = 0.
Proof. apply (getChunks_negative_count 1000 (-4) 10000). lia. Defined.

Lemma restChunks_zero (k : nat) (o : Z) :
  restChunks k 0 o = replicate k {| size := -1; offset := o + 1 |}.
Proof.
  induction k as [|k IH]; [reflexivity|].
  cbn [restChunks replicate]. rewrite Z.add_0_r, IH. reflexivity.
Qed.

(** X6.  When the effective length is at least 1 and at most the chunk count,
    the first chunk requests the whole effective range and every later
    chunk is the same empty range, which starts at the effective length
    and ends one before it. *)
Theorem getChunks_small (totalLength chunkCount sizeLimit : Z) :
  let effectiveLength := Z.min totalLength sizeLimit in
  1 <= effectiveLength <= chunkCount ->
  getChunks totalLength chunkCount sizeLimit
  = {| size := effectiveLength - 1; offset := 0 |}
      :: replicate (Z.to_nat (chunkCount - 1))
                   {| size := -1; offset := effectiveLength |}.
Proof.
  intros effectiveLength Heff. rewrite getChunks_closed by lia.
  assert (baseSpan totalLength chunkCount sizeLimit = 0) as Hbase.
  { unfold baseSpan, span. apply Z.quot_small. lia. }
  assert (firstSpan totalLength chunkCount sizeLimit = effectiveLength - 1)
    as Hfirst.
  { unfold firstSpan. rewrite Hbase. unfold span.
    rewrite Z.rem_small by lia. reflexivity. }
  rewrite Hbase, Hfirst, restChunks_zero. do 3 f_equal. lia.
Qed.

Lemma getChunks_small_witness :
  formatChunk <$> getChunks 4 4 10 = ["0-3"; "4-3"; "4-3"; "4-3"].
Proof.
  rewrite (getChunks_small 4 4 10); [vm_compute; reflexivity | lia].
Defined.

(** * Range formatting *)

Lemma append_assoc' (a b c : string) : (a +:+ b) +:+ c = a +:+ (b +:+ c).
Proof.
  induction a as [|x a IH]; [reflexivity|].
  change (String x ((a +:+ b) +:+ c) = String x (a +:+ (b +:+ c))).
  f_equal. exact IH.
Qed.

Lemma append_empty (a : string) : a +:+ EmptyString = a.
Proof.
  induction a as [|x a IH]; [reflexivity|].
  change (String x (a +:+ EmptyString) = String x a). f_equal. exact IH.
Qed.

Lemma allDigits_app (a b : string) :
  allDigits a = true -> allDigits b = true -> allDigits (a +:+ b) = true.
Proof.
  intros Ha Hb. induction a as [|x a IH]; [exact Hb|].
  cbn [allDigits] in Ha. apply andb_true_iff in Ha as [Hx Ha].
  change (allDigits (String x (a +:+ b)) = true). cbn [allDigits].
  rewrite Hx, (IH Ha). reflexivity.
Qed.

Lemma pretty_N_char_digit (x : N) : is_Some (digit (pretty_N_char x)).
Proof. unfold pretty_N_char. repeat case_match; vm_compute; eauto. Qed.

(** The digits [pretty_N_go] puts in front of its accumulator. *)
Lemma pretty_N_go_shape (x : N) (s : string) :
  exists t, pretty_N_go x s = t +:+ s /\ allDigits t = true
            /\ ((0 < x)%N -> t <> EmptyString).
Proof.
  revert s. induction (N.lt_wf_0 x) as [x _ IH]; intros s.
  destruct (decide (0 < x)%N) as [Hpos|Hzero].
  - rewrite pretty_N_go_step by exact Hpos.
    destruct (IH (x `div` 10)%N) with (s := String (pretty_N_char (x `mod` 10)) s)
      as (t & Ht & Hd & _).
    { apply N.div_lt; [exact Hpos | reflexivity]. }
    exists (t +:+ String (pretty_N_char (x `mod` 10)) EmptyString).
    split; [|split].
    + rewrite Ht, append_assoc'. reflexivity.
    + apply allDigits_app; [exact Hd|]. cbn.
      rewrite bool_decide_eq_true_2 by apply pretty_N_char_digit. reflexivity.
    + intros _. destruct t; discriminate.
  - assert (x = 0%N) as -> by lia. exists EmptyString.
    split; [reflexivity|]. split; [reflexivity | lia].
Qed.

(** A printed integer: an optional minus sign, then at least one digit. *)
Lemma pretty_Z_shape (z : Z) :
  exists sign t, pretty z = sign +:+ t
                 /\ (sign = EmptyString \/ sign = "-")
                 /\ allDigits t = true /\ t <> EmptyString.
Proof.
  destruct z as [|p|p].
  - exists EmptyString, "0". repeat split; [left; reflexivity | discriminate].
  - destruct (pretty_N_go_shape (Npos p) EmptyString) as (t & Ht & Hd & Hne).
    exists EmptyString, t. split; [|split; [left; reflexivity | split]].
    + change (pretty (Zpos p)) with (pretty_N_go (Npos p) EmptyString).
      rewrite Ht. apply append_empty.
    + exact Hd.
    + apply Hne. lia.
  - destruct (pretty_N_go_shape (Npos p) EmptyString) as (t & Ht & Hd & Hne).
    exists "-", t. split; [|split; [right; reflexivity | split]].
    + change (pretty (Zneg p)) with ("-" +:+ pretty_N_go (Npos p) EmptyString).
      rewrite Ht, append_empty. reflexivity.
    + exact Hd.
    + apply Hne. lia.
Qed.

Lemma append_cons (x : ascii) (a b : string) :
  String x a +:+ b = String x (a +:+ b).
Proof. reflexivity. Qed.

(** Two digit strings followed by a minus sign: the first minus sign
    tells where each ends. *)
Lemma digits_dash_split (t t' v v' : string) :
  allDigits t = true -> allDigits t' = true ->
  t +:+ String "-" v = t' +:+ String "-" v' -> t = t' /\ v = v'.
Proof.
  revert t'. induction t as [|x t IH]; intros [|y t'] Ht Ht' E.
  - injection E as ->. split; reflexivity.
  - rewrite append_cons in E. injection E as <- _.
    cbn [allDigits] in Ht'. apply andb_true_iff in Ht' as [Hy _].
    vm_compute in Hy. discriminate Hy.
  - rewrite append_cons in E. injection E as -> _.
    cbn [allDigits] in Ht. apply andb_true_iff in Ht as [Hx _].
    vm_compute in Hx. discriminate Hx.
  - rewrite !append_cons in E. injection E as -> E.
    cbn [allDigits] in Ht, Ht'.
    apply andb_true_iff in Ht as [_ Ht]. apply andb_true_iff in Ht' as [_ Ht'].
    destruct (IH t' Ht Ht' E) as [-> ->]. split; reflexivity.
Qed.

(** Two printed integers, each followed by a minus sign and more text:
    equal wholes have equal parts. *)
Lemma pretty_dash_split (a a' : Z) (v v' : string) :
  pretty a +:+ "-" +:+ v = pretty a' +:+ "-" +:+ v' -> a = a' /\ v = v'.
Proof.
  intros E.
  destruct (pretty_Z_shape a) as (s & t & Ha & Hs & Ht & Hne).
  destruct (pretty_Z_shape a') as (s' & t' & Ha' & Hs' & Ht' & Hne').
  rewrite Ha, Ha', !append_assoc' in E.
  assert (t = t' /\ s = s' /\ v = v') as (-> & -> & ->).
  { destruct Hs as [-> | ->], Hs' as [-> | ->].
    - destruct (digits_dash_split t t' v v' Ht Ht' E) as [-> ->]. auto.
    - destruct t as [|x t]; [congruence|].
      rewrite !append_cons in E. injection E as -> _.
      cbn [allDigits] in Ht. apply andb_true_iff in Ht as [Hx _].
      vm_compute in Hx. discriminate Hx.
    - destruct t' as [|y t']; [congruence|].
      rewrite !append_cons in E. injection E as <- _.
      cbn [allDigits] in Ht'. apply andb_true_iff in Ht' as [Hy _].
      vm_compute in Hy. discriminate Hy.
    - rewrite !append_cons in E. injection E as E.
      destruct (digits_dash_split t t' v v' Ht Ht' E) as [-> ->]. auto. }
  split; [|reflexivity].
  apply (inj pretty). rewrite Ha, Ha'. reflexivity.
Qed.

(** X7.  Distinct chunks whose numbers are exact have distinct ranges: the
    text [formatChunk] prints for such a chunk determines its offset and
    its size. *)
Theorem formatChunk_inj (c c' : Chunk) :
  exactChunk c -> exactChunk c' ->
  formatChunk c = formatChunk c' -> c = c'.
Proof.
  unfold formatChunk. intros _ _ E.
  apply pretty_dash_split in E as [Ho Ee].
  apply (inj pretty) in Ee.
  destruct c as [s o], c' as [s' o']. cbn [offset size] in *.
  f_equal; lia.
Qed.

Lemma formatChunk_inj_witness :
  exactChunk {| size := 248; offset := 253 |}
  /\ formatChunk {| size := 248; offset := 253 |} = "253-501"
  /\ {| size := 501 - 253; offset := 253 |} = {| size := 248; offset := 253 |}.
Proof.
  assert (exactChunk {| size := 248; offset := 253 |}) as Hc
    by (unfold exactChunk, exactInteger, MAX_SAFE_INTEGER; cbn; lia).
  split; [exact Hc|]. split; [vm_compute; reflexivity|].
  apply formatChunk_inj; [exact Hc | exact Hc | vm_compute; reflexivity].
Defined.

(** * Further properties of the download pipeline *)

Lemma download_head_rejected net url (numberOfChunks limit : Z) e :
  axios_head net url = Rejected e ->
  download net url numberOfChunks limit = ([HeadRequest url], Failed e).
Proof. intros Hhead. unfold download. rewrite Hhead. reflexivity. Qed.

(** A run that passes the capability check but reads no integer content
    length. *)
Lemma download_unparsed net url (numberOfChunks limit : Z) headResponse :
  axios_head net url = Fulfilled headResponse ->
  (exists v, headers headResponse !! "accept-ranges" = Some v /\ v <> "none") ->
  ToNumber (headers headResponse !! "content-length") = None ->
  snd (download net url numberOfChunks limit) = Unmodelled.
Proof.
  intros Hhead (v & Hv & Hne) Hlen.
  unfold download. rewrite Hhead. cbn [await].
  rewrite bind_resolved, acceptsRanges_run, bind_resolved. cbn [fst snd].
  rewrite Hv.
  rewrite bool_decide_eq_false_2 by congruence.
  rewrite bool_decide_eq_false_2 by discriminate.
  cbn [orb negb]. rewrite Hlen. reflexivity.
Qed.

(** The header either passes the capability check or it does not. *)
Lemma supported_dec (h : gmap string string) :
  (exists v, h !! "accept-ranges" = Some v /\ v <> "none")
  \/ (h !! "accept-ranges" = None \/ h !! "accept-ranges" = Some "none").
Proof.
  destruct (h !! "accept-ranges") as [v|]; [|right; left; reflexivity].
  destruct (decide (v = "none")) as [->|Hne].
  - right. right. reflexivity.
  - left. exists v. split; [reflexivity | exact Hne].
Qed.

(** A download that resolves went through the fetches and validation. *)
Lemma download_resolved_fetch net url (numberOfChunks limit : Z) buffer :
  snd (download net url numberOfChunks limit) = Resolved buffer ->
  exists headResponse contentLength,
    axios_head net url = Fulfilled headResponse
    /\ (exists v, headers headResponse !! "accept-ranges" = Some v /\ v <> "none")
    /\ ToNumber (headers headResponse !! "content-length") = Some contentLength
    /\ validated (snd (fetchAll net url
                         (getChunks contentLength numberOfChunks limit)))
       = Resolved buffer.
Proof.
  intros Hrun.
  destruct (axios_head net url) as [headResponse|e] eqn:Hhead.
  - destruct (supported_dec (headers headResponse)) as [Hyes|Hno].
    + destruct (ToNumber (headers headResponse !! "content-length"))
        as [contentLength|] eqn:Hlen.
      * rewrite (download_supported net url numberOfChunks limit headResponse
                   contentLength Hhead Hyes Hlen) in Hrun.
        exists headResponse, contentLength. auto.
      * rewrite (download_unparsed net url numberOfChunks limit headResponse
                   Hhead Hyes Hlen) in Hrun. discriminate Hrun.
    + rewrite (download_unsupported_run net url numberOfChunks limit
                 headResponse Hhead Hno) in Hrun. discriminate Hrun.
  - rewrite (download_head_rejected net url numberOfChunks limit e Hhead) in Hrun.
    discriminate Hrun.
Qed.

Lemma validated_resolved_inv fetched buffer :
  validated fetched = Resolved buffer ->
  exists responses,
    fetched = Resolved responses
    /\ Forall (fun r => status (response r) = 206) responses
    /\ buffer = concat ((fun r => data (response r)) <$> responses).
Proof.
  destruct fetched as [responses|e| |]; cbn [validated]; try discriminate.
  destruct (List.filter isInvalid responses) as [|r rs] eqn:Hf; cbn;
    [|discriminate].
  intros [= <-]. exists responses. split; [reflexivity|]. split; [|reflexivity].
  apply filter_isInvalid_nil. exact Hf.
Qed.

(** X8.  When the probe itself fails, [download] fails with the reason the
    probe was rejected with, unchanged, and has done nothing but the HEAD
    request: no log line, no range request. *)
Theorem download_probe_failure net url (numberOfChunks limit : Z) e :
  axios_head net url = Rejected e ->
  snd (download net url numberOfChunks limit) = Failed e
  /\ fst (download net url numberOfChunks limit) = [HeadRequest url].
Proof.
  intros Hhead.
  rewrite (download_head_rejected net url numberOfChunks limit e Hhead).
  split; reflexivity.
Qed.

Lemma download_probe_failure_witness :
  snd (download deadServer "http://host/file" 4 4194304)
  = Failed (AxiosError "ENOTFOUND").
Proof.
  apply (download_probe_failure deadServer "http://host/file" 4 4194304).
  reflexivity.
Defined.

(** X9.  The effects of a download that passes the capability check and
    plans from valid inputs are fixed
    by the url, the two header values and the plan: the HEAD request, the
    two log lines, then for each chunk in plan order its log line and its
    range request.  So there is one range request per requested chunk,
    and neither the answers, nor their order of arrival, nor the failure
    of the download changes what is requested. *)
Theorem download_trace net url (numberOfChunks limit : Z)
    headResponse contentLength :
  validInputs contentLength numberOfChunks limit ->
  axios_head net url = Fulfilled headResponse ->
  (exists v, headers headResponse !! "accept-ranges" = Some v /\ v <> "none") ->
  ToNumber (headers headResponse !! "content-length") = Some contentLength ->
  fst (download net url numberOfChunks limit)
  = [HeadRequest url;
     Log (display (headers headResponse !! "accept-ranges"));
     Log ("content-length: "
          +:+ display (headers headResponse !! "content-length"))]
    ++ concat (fetchEvents url
                 <$> getChunks contentLength numberOfChunks limit)
  /\ Z.of_nat (length (getRequests (fst (download net url numberOfChunks limit))))
     = numberOfChunks.
Proof.
  intros (_ & _ & Hn & _) Hhead Hranges Hlen.
  rewrite (download_supported net url numberOfChunks limit headResponse
             contentLength Hhead Hranges Hlen).
  cbn [fst]. rewrite fetchAll_trace. split; [reflexivity|].
  cbn [app getRequests omap list_omap].
  change (list_omap _ _ ?f ?t) with (omap f t).
  fold (getRequests
          (concat (fetchEvents url
                     <$> getChunks contentLength numberOfChunks limit))).
  rewrite getRequests_fetchEvents, length_fmap.
  rewrite getChunks_closed by lia.
  cbn [length]. rewrite restChunks_length. lia.
Qed.

Lemma download_trace_witness :
  Z.of_nat (length (getRequests
                      (fst (download flakyServer "http://host/file" 4 10000))))
  = 4.
Proof.
  apply (download_trace flakyServer "http://host/file" 4 10000
           (mkResponse 200 rangeHeaders []) 1000).
  - unfold validInputs, safeInteger, MAX_SAFE_INTEGER, MAX_ARRAY_LENGTH. lia.
  - reflexivity.
  - exists "bytes". split; [vm_compute; reflexivity | discriminate].
  - vm_compute. reflexivity.
Defined.

(** Fulfilments that arrive before a rejection do not stop it from
    rejecting the whole. *)
Lemma settle_first_rejection {A} (before : list (nat * settled A)) index e rest :
  Forall (fun p => exists v, snd p = Fulfilled v) before ->
  forall values,
    settle values (before ++ (index, Rejected e) :: rest) = Failed e.
Proof.
  induction before as [|[i p] before IH]; intros Hall values.
  - reflexivity.
  - apply Forall_cons in Hall as [[v Hv] Hall]. cbn [snd] in Hv. subst p.
    cbn [app settle]. apply IH. exact Hall.
Qed.

Lemma collect_Some_inv {A} (values : list (option A)) vs :
  collect values = Some vs -> values = Some <$> vs.
Proof.
  revert vs. induction values as [|[v|] values IH]; intros vs; cbn [collect].
  - intros [= <-]. reflexivity.
  - destruct (collect values) as [ws|]; cbn; [|discriminate].
    intros [= <-]. rewrite (IH ws eq_refl). reflexivity.
  - discriminate.
Qed.

(** Each value [Promise.all] resolves with was in its slot already or
    arrived as the fulfilment of the promise at its index. *)
Lemma settle_resolved_inv {A} (arrivals : list (nat * settled A)) :
  forall values vs,
    settle values arrivals = Resolved vs ->
    length vs = length values
    /\ forall (i : nat) v, vs !! i = Some v ->
         values !! i = Some (Some v) \/ (i, Fulfilled v) ∈ arrivals.
Proof.
  induction arrivals as [|[k [w|e]] arrivals IH]; intros values vs; cbn [settle].
  - destruct (collect values) as [ws|] eqn:Hc; [|discriminate].
    intros [= <-]. apply collect_Some_inv in Hc. subst values.
    rewrite length_fmap. split; [reflexivity|].
    intros i v Hv. left. rewrite list_lookup_fmap, Hv. reflexivity.
  - intros Hs. destruct (IH _ _ Hs) as [Hlen Hvals].
    rewrite length_insert in Hlen. split; [exact Hlen|].
    intros i v Hv. destruct (Hvals i v Hv) as [H|H].
    + apply list_lookup_insert_Some in H as [(-> & [= ->] & _)|[_ H]].
      * right. apply elem_of_cons. left. reflexivity.
      * left. exact H.
    + right. apply elem_of_cons. right. exact H.
  - discriminate.
Qed.

(** [Promise.all] resolves only when every promise has arrived fulfilled,
    and then with the values of the promises in their order. *)
Lemma Promise_all_resolved_inv {A} (arrival : list nat)
    (promises : list (settled A)) vs :
  Promise_all arrival promises = Resolved vs ->
  promises = Fulfilled <$> vs
  /\ forall i : nat, (i < length promises)%nat -> i ∈ arrival.
Proof.
  unfold Promise_all. intros Hs.
  apply settle_resolved_inv in Hs as [Hlen Hvals].
  rewrite length_replicate in Hlen.
  assert (forall (i : nat) v, vs !! i = Some v ->
            i ∈ arrival /\ promises !! i = Some (Fulfilled v)) as Hin.
  { intros i v Hv. destruct (Hvals i v Hv) as [H|H].
    - apply lookup_replicate in H as [H _]. discriminate H.
    - apply list_elem_of_omap in H as (j & Hj & Hp).
      destruct (promises !! j) as [p|] eqn:Hpj; cbn in Hp; [|discriminate].
      injection Hp as -> ->. split; [exact Hj | exact Hpj]. }
  split.
  - apply list_eq. intros i. rewrite list_lookup_fmap.
    destruct (vs !! i) as [v|] eqn:Hv.
    + destruct (Hin i v Hv) as [_ H]. exact H.
    + apply lookup_ge_None. apply lookup_ge_None in Hv. lia.
  - intros i Hi. destruct (lookup_lt_is_Some_2 vs i) as [v Hv]; [lia|].
    destruct (Hin i v Hv) as [H _]. exact H.
Qed.

(** The fetches resolve only when every request was answered. *)
Lemma fetchAll_resolved_inv net url chunks responses :
  snd (fetchAll net url chunks) = Resolved responses ->
  (forall k : nat, (k < length chunks)%nat -> k ∈ arrival net)
  /\ length responses = length chunks
  /\ forall (k : nat) chunk, chunks !! k = Some chunk ->
       exists r,
         axios_get net k url ("bytes=" +:+ formatChunk chunk) = Fulfilled r
         /\ responses !! k = Some {| chunk := chunk; response := r |}.
Proof.
  unfold fetchAll. cbn [snd]. intros Hs.
  apply Promise_all_resolved_inv in Hs as [Hp Harr].
  rewrite length_fmap, length_imap in Harr.
  split; [exact Harr|].
  assert (length responses = length chunks) as Hlen.
  { apply (f_equal length) in Hp.
    rewrite !length_fmap, length_imap in Hp. lia. }
  split; [exact Hlen|].
  intros k c Hc.
  apply (f_equal (fun l => l !! k)) in Hp.
  rewrite !list_lookup_fmap, list_lookup_imap, Hc in Hp. cbn in Hp.
  destruct (responses !! k) as [r|] eqn:Hr; cbn in Hp; [|discriminate].
  destruct (axios_get net k url ("bytes=" +:+ formatChunk c)) as [resp|e];
    [|discriminate].
  injection Hp as <-. exists resp. split; reflexivity.
Qed.

Lemma getChunks_count a n l : 0 < n -> length (getChunks a n l) = Z.to_nat n.
Proof.
  intros Hn. rewrite getChunks_closed by lia.
  cbn [length]. rewrite restChunks_length. lia.
Qed.

(** X10.  For a plan from valid inputs, a request that is rejected before
    any other rejection arrives makes
    [download] fail with that request's reason, unchanged: the failure of
    a request takes precedence over validation, also when other answers
    have a status that is not 206. *)
Theorem download_first_rejection net url (numberOfChunks limit : Z)
    headResponse contentLength (k : nat) chunk e before after :
  let chunks := getChunks contentLength numberOfChunks limit in
  axios_head net url = Fulfilled headResponse ->
  (exists v, headers headResponse !! "accept-ranges" = Some v /\ v <> "none") ->
  ToNumber (headers headResponse !! "content-length") = Some contentLength ->
  validInputs contentLength numberOfChunks limit ->
  arrival net = before ++ k :: after ->
  chunks !! k = Some chunk ->
  axios_get net k url ("bytes=" +:+ formatChunk chunk) = Rejected e ->
  (forall (j : nat) cj, j ∈ before -> chunks !! j = Some cj ->
     exists r, axios_get net j url ("bytes=" +:+ formatChunk cj) = Fulfilled r) ->
  snd (download net url numberOfChunks limit) = Failed e.
Proof.
  intros chunks Hhead Hranges Hlen _ Harr Hk Hrej Hbefore.
  rewrite (download_supported net url numberOfChunks limit headResponse
             contentLength Hhead Hranges Hlen).
  cbn [snd]. fold chunks. unfold fetchAll. cbn [snd].
  unfold Promise_all. rewrite Harr, omap_app.
  cbn [omap list_omap].
  change (list_omap _ _ ?f ?t) with (omap f t).
  rewrite list_lookup_fmap, list_lookup_imap, Hk. cbn [fmap option_fmap option_map].
  cbn [fetchChunk snd]. rewrite Hrej.
  rewrite settle_first_rejection; [reflexivity|].
  apply Forall_forall. intros [j p] Hjp.
  apply list_elem_of_omap in Hjp as (j' & Hj' & Hp).
  rewrite list_lookup_fmap, list_lookup_imap in Hp.
  destruct (chunks !! j') as [cj|] eqn:Hcj; cbn in Hp; [|discriminate].
  injection Hp as <- <-.
  destruct (Hbefore j' cj Hj' Hcj) as [r Hr]. rewrite Hr. cbn. eauto.
Qed.

Lemma download_first_rejection_witness :
  snd (download flakyServer "http://host/file" 4 10000)
  = Failed (AxiosError "ECONNRESET").
Proof.
  apply (download_first_rejection flakyServer "http://host/file" 4 10000
           (mkResponse 200 rangeHeaders []) 1000 2%nat
           {| size := 248; offset := 502 |} (AxiosError "ECONNRESET")
           [3%nat] [1%nat; 0%nat]).
  - reflexivity.
  - exists "bytes". split; [vm_compute; reflexivity | discriminate].
  - vm_compute. reflexivity.
  - unfold validInputs, safeInteger, MAX_SAFE_INTEGER, MAX_ARRAY_LENGTH. lia.
  - reflexivity.
  - vm_compute. reflexivity.
  - reflexivity.
  - intros j cj Hj _. apply list_elem_of_singleton in Hj. subst j.
    eexists. reflexivity.
Defined.

(** X11.  [download] is a barrier: it does not resolve while the answer to one
    of its range requests is outstanding, whatever the answers that did
    arrive. *)
Theorem download_barrier net url (numberOfChunks limit : Z) (k : nat) :
  0 < numberOfChunks -> Z.of_nat k < numberOfChunks ->
  k ∉ arrival net ->
  forall buffer, snd (download net url numberOfChunks limit) <> Resolved buffer.
Proof.
  intros Hn Hk Hout buffer Hrun.
  apply download_resolved_fetch in Hrun
    as (headResponse & contentLength & _ & _ & _ & Hval).
  apply validated_resolved_inv in Hval as (responses & Hfetch & _).
  apply fetchAll_resolved_inv in Hfetch as [Harr _].
  apply Hout, Harr. rewrite getChunks_count by exact Hn. lia.
Qed.

Lemma download_barrier_witness :
  0 < 4
  /\ snd (download stalledServer "http://host/file" 4 10000)
     <> Resolved [x00; x01; x02; x03].
Proof.
  split; [lia|].
  apply (download_barrier stalledServer "http://host/file" 4 10000 0%nat).
  - lia.
  - lia.
  - apply (bool_decide_unpack _). vm_compute. exact I.
Defined.

(** X12.  In a run the model follows (a content-length header of decimal
    digits, valid inputs), a download resolves only if the server
    advertised ranges, every range request of the plan made from the
    content length was answered with a 206, and the buffer is the
    answers' payloads concatenated in the order of the plan. *)
Theorem download_resolved_inv net url (numberOfChunks limit : Z) buffer :
  withinModel net url numberOfChunks limit ->
  snd (download net url numberOfChunks limit) = Resolved buffer ->
  exists headResponse contentLength (answers : list Response),
    axios_head net url = Fulfilled headResponse
    /\ (exists v, headers headResponse !! "accept-ranges" = Some v /\ v <> "none")
    /\ ToNumber (headers headResponse !! "content-length") = Some contentLength
    /\ length answers = length (getChunks contentLength numberOfChunks limit)
    /\ (forall (k : nat) chunk,
          getChunks contentLength numberOfChunks limit !! k = Some chunk ->
          exists r, answers !! k = Some r
                    /\ axios_get net k url ("bytes=" +:+ formatChunk chunk)
                       = Fulfilled r
                    /\ status r = 206)
    /\ buffer = concat (data <$> answers).
Proof.
  intros _ Hrun.
  apply download_resolved_fetch in Hrun
    as (headResponse & contentLength & Hhead & Hranges & Hlen & Hval).
  apply validated_resolved_inv in Hval as (responses & Hfetch & Hall & ->).
  apply fetchAll_resolved_inv in Hfetch as (_ & Hcount & Hget).
  exists headResponse, contentLength, (response <$> responses).
  split; [exact Hhead|]. split; [exact Hranges|]. split; [exact Hlen|].
  split; [rewrite length_fmap; exact Hcount|]. split.
  - intros k c Hc. destruct (Hget k c Hc) as (r & Hr & Hk).
    exists r. split; [rewrite list_lookup_fmap, Hk; reflexivity|].
    split; [exact Hr|].
    rewrite Forall_lookup in Hall. exact (Hall k _ Hk).
  - rewrite <- list_fmap_compose. reflexivity.
Qed.

Lemma download_resolved_inv_witness :
  exists headResponse contentLength (answers : list Response),
    axios_head (server (fun _ => 206)) "http://host/file" = Fulfilled headResponse
    /\ (exists v, headers headResponse !! "accept-ranges" = Some v /\ v <> "none")
    /\ ToNumber (headers headResponse !! "content-length") = Some contentLength
    /\ length answers = length (getChunks contentLength 4 10000)
    /\ (forall (k : nat) chunk,
          getChunks contentLength 4 10000 !! k = Some chunk ->
          exists r, answers !! k = Some r
                    /\ axios_get (server (fun _ => 206)) k "http://host/file"
                         ("bytes=" +:+ formatChunk chunk) = Fulfilled r
                    /\ status r = 206)
    /\ [x00; x01; x02; x03] = concat (data <$> answers).
Proof.
  apply (download_resolved_inv (server (fun _ => 206)) "http://host/file" 4 10000).
  - intros headResponse Hhead _. injection Hhead as <-.
    exists 1000. split; [vm_compute; reflexivity|].
    unfold validInputs, safeInteger, MAX_SAFE_INTEGER, MAX_ARRAY_LENGTH. lia.
  - vm_compute. reflexivity.
Defined.

(** With every request answered, the buffer of a download that passes
    validation. *)
Lemma download_fulfilled net url (numberOfChunks limit : Z)
    headResponse contentLength (answer : nat -> Response) :
  let chunks := getChunks contentLength numberOfChunks limit in
  axios_head net url = Fulfilled headResponse ->
  (exists v, headers headResponse !! "accept-ranges" = Some v /\ v <> "none") ->
  ToNumber (headers headResponse !! "content-length") = Some contentLength ->
  arrival net ≡ₚ seq 0 (length chunks) ->
  (forall (k : nat) chunk, chunks !! k = Some chunk ->
     axios_get net k url ("bytes=" +:+ formatChunk chunk) = Fulfilled (answer k)) ->
  snd (download net url numberOfChunks limit)
  = validated
      (Resolved (imap (fun k chunk => {| chunk := chunk; response := answer k |})
                      chunks)).
Proof.
  intros chunks Hhead Hranges Hlen Hperm Hanswer.
  rewrite (download_supported net url numberOfChunks limit headResponse
             contentLength Hhead Hranges Hlen).
  cbn [snd]. fold chunks.
  rewrite (fetchAll_fulfilled net url chunks answer Hperm Hanswer).
  reflexivity.
Qed.

(** X13.  For a plan from valid inputs with every request answered, one
    answer whose status is not 206 is
    enough for [download] to fail: it returns no buffer, and its error is
    built from the offending results, of which there is at least one. *)
Theorem download_invalid net url (numberOfChunks limit : Z)
    headResponse contentLength (answer : nat -> Response) :
  let chunks := getChunks contentLength numberOfChunks limit in
  let results :=
    imap (fun k chunk => {| chunk := chunk; response := answer k |}) chunks in
  axios_head net url = Fulfilled headResponse ->
  (exists v, headers headResponse !! "accept-ranges" = Some v /\ v <> "none") ->
  ToNumber (headers headResponse !! "content-length") = Some contentLength ->
  validInputs contentLength numberOfChunks limit ->
  arrival net ≡ₚ seq 0 (length chunks) ->
  (forall (k : nat) chunk, chunks !! k = Some chunk ->
     axios_get net k url ("bytes=" +:+ formatChunk chunk) = Fulfilled (answer k)) ->
  (exists k : nat, (k < length chunks)%nat /\ status (answer k) <> 206) ->
  snd (download net url numberOfChunks limit)
  = Failed (invalidError (List.filter isInvalid results))
  /\ List.filter isInvalid results <> [].
Proof.
  intros chunks results Hhead Hranges Hlen _ Hperm Hanswer (k & Hk & Hbad).
  assert (~ Forall (fun r => status (response r) = 206) results) as Hnot.
  { intros Hall. rewrite Forall_lookup in Hall.
    destruct (lookup_lt_is_Some_2 chunks k Hk) as [c Hc].
    apply Hbad.
    apply (Hall k {| chunk := c; response := answer k |}).
    subst results. rewrite list_lookup_imap, Hc. reflexivity. }
  split.
  - rewrite (download_fulfilled net url numberOfChunks limit headResponse
               contentLength answer Hhead Hranges Hlen Hperm Hanswer).
    fold chunks results.
    destruct (validated_spec results) as [_ H]. exact (H Hnot).
  - intros Hnil. apply Hnot, filter_isInvalid_nil. exact Hnil.
Qed.

Lemma download_invalid_witness :
  exists e, snd (download (server firstTwoInvalid) "http://host/file" 4 10000)
            = Failed e.
Proof.
  eexists.
  apply (download_invalid (server firstTwoInvalid) "http://host/file" 4 10000
           (mkResponse 200 rangeHeaders []) 1000
           (fun k => mkResponse (firstTwoInvalid k) ∅ (payload k))).
  - reflexivity.
  - exists "bytes". split; [vm_compute; reflexivity | discriminate].
  - vm_compute. reflexivity.
  - unfold validInputs, safeInteger, MAX_SAFE_INTEGER, MAX_ARRAY_LENGTH. lia.
  - change ([3; 2; 1; 0]%nat ≡ₚ [0; 1; 2; 3]%nat).
    apply (bool_decide_unpack _). vm_compute. exact I.
  - intros k chunk _. reflexivity.
  - exists 0%nat. split; [vm_compute; lia | vm_compute; discriminate].
Defined.

(** ** Against a server that holds the resource *)

Lemma slices_rest (file : Buffer) (k : nat) (c o : Z) :
  0 <= c -> 0 <= o + 1 ->
  concat (slice file <$> restChunks k c o)
  = take (k * Z.to_nat c) (drop (Z.to_nat (o + 1)) file).
Proof.
  intros Hc. revert o. induction k as [|k IH]; intros o Ho.
  - reflexivity.
  - cbn [restChunks fmap list_fmap concat].
    change (list_fmap Chunk Buffer (slice file) ?r) with (slice file <$> r).
    rewrite IH by lia. unfold slice at 1. cbn [size offset].
    replace (c - 1 + 1) with c by lia.
    replace (Z.to_nat (o + c + 1)) with (Z.to_nat (o + 1) + Z.to_nat c)%nat by lia.
    rewrite <- drop_drop, take_take_drop. f_equal.
Qed.

Lemma slices_rest_empty (file : Buffer) (k : nat) (c o : Z) :
  c <= 0 -> concat (slice file <$> restChunks k c o) = [].
Proof.
  intros Hc. revert o. induction k as [|k IH]; intros o.
  - reflexivity.
  - cbn [restChunks fmap list_fmap concat].
    change (list_fmap Chunk Buffer (slice file) ?r) with (slice file <$> r).
    rewrite IH. unfold slice. cbn [size offset].
    replace (Z.to_nat (c - 1 + 1)) with 0%nat by lia. reflexivity.
Qed.

(** The slices of the planned chunks, put together in plan order, are the
    first [min(contentLength, limit)] bytes of the file. *)
Lemma slices_getChunks (file : Buffer) (a n l : Z) :
  0 < n ->
  concat (slice file <$> getChunks a n l) = take (Z.to_nat (Z.min a l)) file.
Proof.
  intros Hn. rewrite getChunks_closed by lia.
  cbn [fmap list_fmap concat].
  change (list_fmap Chunk Buffer (slice file) ?r) with (slice file <$> r).
  pose proof (span_split a n l) as Hsplit.
  destruct (span_signs a n l Hn) as [Hpos Hneg].
  unfold slice at 1. cbn [size offset]. rewrite drop_0.
  destruct (Z_lt_le_dec (span a l) 0) as [Hlt|Hge].
  - destruct (Hneg Hlt) as [Hbase Hrem].
    rewrite slices_rest_empty by exact Hbase.
    assert (firstSpan a n l + 1 <= 0) by (unfold firstSpan in *; nia).
    unfold span in Hlt.
    replace (Z.to_nat (firstSpan a n l + 1)) with 0%nat by lia.
    replace (Z.to_nat (Z.min a l)) with 0%nat by lia. reflexivity.
  - destruct (Hpos Hge) as [Hbase Hrem].
    assert (0 <= firstSpan a n l) by (unfold firstSpan; lia).
    rewrite slices_rest by lia. rewrite take_take_drop. f_equal.
    unfold span in Hsplit. nia.
Qed.

(** A download from a server that answers each planned range with a 206
    carrying the bytes of that range. *)
Lemma download_slices net url (numberOfChunks limit : Z)
    headResponse contentLength (answer : nat -> Response) (file : Buffer) :
  let chunks := getChunks contentLength numberOfChunks limit in
  0 < numberOfChunks ->
  axios_head net url = Fulfilled headResponse ->
  (exists v, headers headResponse !! "accept-ranges" = Some v /\ v <> "none") ->
  ToNumber (headers headResponse !! "content-length") = Some contentLength ->
  arrival net ≡ₚ seq 0 (length chunks) ->
  (forall (k : nat) chunk, chunks !! k = Some chunk ->
     axios_get net k url ("bytes=" +:+ formatChunk chunk) = Fulfilled (answer k)
     /\ status (answer k) = 206
     /\ data (answer k) = slice file chunk) ->
  snd (download net url numberOfChunks limit)
  = Resolved (take (Z.to_nat (Z.min contentLength limit)) file).
Proof.
  intros chunks Hn Hhead Hranges Hlen Hperm Hanswer.
  rewrite (download_fulfilled net url numberOfChunks limit headResponse
             contentLength answer Hhead Hranges Hlen Hperm).
  - fold chunks.
    destruct (validated_spec
                (imap (fun k chunk => {| chunk := chunk; response := answer k |})
                      chunks)) as [Hok _].
    rewrite Hok.
    + rewrite fmap_imap.
      rewrite (imap_ext _ (const (slice file))).
      * rewrite imap_const. subst chunks. rewrite slices_getChunks by exact Hn.
        reflexivity.
      * intros k c Hc. cbn. apply (Hanswer k c Hc).
    + apply Forall_lookup. intros k r Hr.
      apply list_lookup_imap_Some in Hr as (c & Hc & ->). cbn.
      apply (Hanswer k c Hc).
  - intros k c Hc. apply (Hanswer k c Hc).
Qed.

(** X14.  For a plan from valid inputs, against a server that answers
    each planned range with a 206 carrying the bytes of that range of a
    file, in whatever order the answers arrive, [download] returns the first [min(contentLength, limit)] bytes
    of the file: never more than [limit] bytes, and the whole file when
    the content length is the file's length and does not exceed the
    limit. *)
Theorem download_file net url (numberOfChunks limit : Z)
    headResponse contentLength (answer : nat -> Response) (file : Buffer) :
  let chunks := getChunks contentLength numberOfChunks limit in
  validInputs contentLength numberOfChunks limit ->
  axios_head net url = Fulfilled headResponse ->
  (exists v, headers headResponse !! "accept-ranges" = Some v /\ v <> "none") ->
  ToNumber (headers headResponse !! "content-length") = Some contentLength ->
  arrival net ≡ₚ seq 0 (length chunks) ->
  (forall (k : nat) chunk, chunks !! k = Some chunk ->
     axios_get net k url ("bytes=" +:+ formatChunk chunk) = Fulfilled (answer k)
     /\ status (answer k) = 206
     /\ data (answer k) = slice file chunk) ->
  exists buffer,
    snd (download net url numberOfChunks limit) = Resolved buffer
    /\ buffer = take (Z.to_nat (Z.min contentLength limit)) file
    /\ Z.of_nat (length buffer) <= Z.max 0 limit
    /\ (contentLength = Z.of_nat (length file) -> contentLength <= limit ->
        buffer = file).
Proof.
  intros chunks (_ & _ & Hn & _) Hhead Hranges Hlen Hperm Hanswer.
  exists (take (Z.to_nat (Z.min contentLength limit)) file).
  split; [|split; [reflexivity|split]].
  - apply (download_slices net url numberOfChunks limit headResponse
             contentLength answer file Hn Hhead Hranges Hlen Hperm Hanswer).
  - rewrite length_take. lia.
  - intros Hfile Hle. apply take_ge. lia.
Qed.

Lemma download_file_witness :
  exists buffer,
    snd (download (fileServer tenBytes 3 8 [2; 0; 1]%nat) "http://host/file" 3 8)
    = Resolved buffer
    /\ buffer = take (Z.to_nat (Z.min 10 8)) tenBytes.
Proof.
  destruct (download_file (fileServer tenBytes 3 8 [2; 0; 1]%nat)
              "http://host/file" 3 8
              (mkResponse 200 {[ "accept-ranges" := "bytes";
                                 "content-length" := "10" ]} [])
              10
              (fun k => mkResponse 206 ∅
                          (slice tenBytes
                             (default {| size := 0; offset := 0 |}
                                      (getChunks 10 3 8 !! k))))
              tenBytes) as (buffer & Hrun & Hbuf & _).
  - unfold validInputs, safeInteger, MAX_SAFE_INTEGER, MAX_ARRAY_LENGTH. lia.
  - reflexivity.
  - exists "bytes". split; [vm_compute; reflexivity | discriminate].
  - vm_compute. reflexivity.
  - change ([2; 0; 1]%nat ≡ₚ [0; 1; 2]%nat).
    apply (bool_decide_unpack _). vm_compute. exact I.
  - intros k chunk Hc. cbn [axios_get fileServer].
    change (Z.of_nat (length tenBytes)) with 10. rewrite Hc.
    cbn [default]. repeat split.
  - exists buffer. split; [exact Hrun | exact Hbuf].
Defined.

(** * The command *)

Lemma writes_net (t : list event) :
  downloadCommand.writes (downloadCommand.Net <$> t) = [].
Proof. induction t as [|e t IH]; [reflexivity | exact IH]. Qed.

Lemma writes_app (t t' : list downloadCommand.effect) :
  downloadCommand.writes (t ++ t')
  = downloadCommand.writes t ++ downloadCommand.writes t'.
Proof. apply omap_app. Qed.

(** X15.  In a run the model follows (a content-length header of decimal
    digits, valid inputs), whenever the download does not resolve (the
    probe fails, ranges are not supported, a request fails, a status is
    not a 206, or an answer is outstanding), the command writes no file,
    and a failure of the download is the failure of the command. *)
Theorem handler_no_partial_output net writeFile
    (args : downloadCommand.DownloadArguments) :
  withinModel net (downloadCommand.url args) (downloadCommand.chunks args)
    (downloadCommand.limit args) ->
  (forall content,
     snd (download net (downloadCommand.url args) (downloadCommand.chunks args)
            (downloadCommand.limit args)) <> Resolved content) ->
  downloadCommand.writes (fst (downloadCommand.handler net writeFile args)) = []
  /\ forall e,
       snd (download net (downloadCommand.url args) (downloadCommand.chunks args)
              (downloadCommand.limit args)) = Failed e ->
       snd (downloadCommand.handler net writeFile args) = Failed e.
Proof.
  intros _ Hnot. unfold downloadCommand.handler.
  destruct (download net (downloadCommand.url args) (downloadCommand.chunks args)
              (downloadCommand.limit args)) as [t [content|e| |]];
    cbn [fst snd] in *.
  - destruct (Hnot content). reflexivity.
  - split; [apply writes_net | intros e' [= <-]; reflexivity].
  - split; [apply writes_net | discriminate].
  - split; [apply writes_net | discriminate].
Qed.

Lemma handler_no_partial_output_witness :
  downloadCommand.writes
    (fst (downloadCommand.handler flakyServer (fun _ _ => Fulfilled tt)
            (downloadCommand.mkArguments "http://host/file" 4 10000 "out/data")))
  = []
  /\ snd (downloadCommand.handler flakyServer (fun _ _ => Fulfilled tt)
            (downloadCommand.mkArguments "http://host/file" 4 10000 "out/data"))
     = Failed (AxiosError "ECONNRESET").
Proof.
  destruct (handler_no_partial_output flakyServer (fun _ _ => Fulfilled tt)
              (downloadCommand.mkArguments "http://host/file" 4 10000 "out/data"))
    as [Hwrites Hfail].
  - intros headResponse Hhead _. injection Hhead as <-.
    exists 1000. split; [vm_compute; reflexivity|].
    unfold validInputs, safeInteger, MAX_SAFE_INTEGER, MAX_ARRAY_LENGTH.
    cbn [downloadCommand.chunks downloadCommand.limit]. lia.
  - intros content. vm_compute. discriminate.
  - split; [exact Hwrites|]. apply Hfail. vm_compute. reflexivity.
Defined.

(** X16.  For a plan from valid inputs, against a server that answers
    each planned range with a 206 carrying the bytes of that range of a
    file, the command writes exactly once,
    after all its requests: the first [min(contentLength, limit)] bytes of
    the file, to the output path; and it succeeds exactly when that write
    does. *)
Theorem handler_writes_file net writeFile
    (args : downloadCommand.DownloadArguments)
    headResponse contentLength (answer : nat -> Response) (file : Buffer) :
  let url := downloadCommand.url args in
  let limit := downloadCommand.limit args in
  let chunks := getChunks contentLength (downloadCommand.chunks args) limit in
  let content := take (Z.to_nat (Z.min contentLength limit)) file in
  validInputs contentLength (downloadCommand.chunks args) limit ->
  axios_head net url = Fulfilled headResponse ->
  (exists v, headers headResponse !! "accept-ranges" = Some v /\ v <> "none") ->
  ToNumber (headers headResponse !! "content-length") = Some contentLength ->
  arrival net ≡ₚ seq 0 (length chunks) ->
  (forall (k : nat) chunk, chunks !! k = Some chunk ->
     axios_get net k url ("bytes=" +:+ formatChunk chunk) = Fulfilled (answer k)
     /\ status (answer k) = 206
     /\ data (answer k) = slice file chunk) ->
  downloadCommand.writes (fst (downloadCommand.handler net writeFile args))
  = [(downloadCommand.output args, content)]
  /\ (exists t, fst (downloadCommand.handler net writeFile args)
                = (downloadCommand.Net <$> t)
                  ++ [downloadCommand.WriteFile (downloadCommand.output args) content])
  /\ (snd (downloadCommand.handler net writeFile args) = Resolved tt
      <-> exists u, writeFile (downloadCommand.output args) content = Fulfilled u).
Proof.
  intros url limit chunks content (_ & _ & Hn & _) Hhead Hranges Hlen Hperm Hanswer.
  pose proof (download_slices net url (downloadCommand.chunks args) limit
                headResponse contentLength answer file
                Hn Hhead Hranges Hlen Hperm Hanswer) as Hrun.
  fold content in Hrun. unfold downloadCommand.handler. fold url limit.
  destruct (download net url (downloadCommand.chunks args) limit) as [t o].
  cbn [snd] in Hrun. subst o. cbn [fst snd]. split; [|split].
  - rewrite writes_app, writes_net. reflexivity.
  - exists t. reflexivity.
  - destruct (writeFile (downloadCommand.output args) content) as [[]|e]; split.
    + intros _. exists tt. reflexivity.
    + reflexivity.
    + discriminate.
    + intros [u Hu]. discriminate Hu.
Qed.

Lemma handler_writes_file_witness :
  downloadCommand.writes
    (fst (downloadCommand.handler (fileServer tenBytes 3 8 [2; 0; 1]%nat)
            (fun _ _ => Fulfilled tt)
            (downloadCommand.mkArguments "http://host/file" 3 8 "out/data")))
  = [("out/data", take (Z.to_nat (Z.min 10 8)) tenBytes)].
Proof.
  apply (handler_writes_file (fileServer tenBytes 3 8 [2; 0; 1]%nat)
           (fun _ _ => Fulfilled tt)
           (downloadCommand.mkArguments "http://host/file" 3 8 "out/data")
           (mkResponse 200 {[ "accept-ranges" := "bytes";
                              "content-length" := "10" ]} [])
           10
           (fun k => mkResponse 206 ∅
                       (slice tenBytes
                          (default {| size := 0; offset := 0 |}
                                   (getChunks 10 3 8 !! k))))
           tenBytes).
  - cbn [downloadCommand.chunks downloadCommand.limit].
    unfold validInputs, safeInteger, MAX_SAFE_INTEGER, MAX_ARRAY_LENGTH. lia.
  - reflexivity.
  - exists "bytes". split; [vm_compute; reflexivity | discriminate].
  - vm_compute. reflexivity.
  - change ([2; 0; 1]%nat ≡ₚ [0; 1; 2]%nat).
    apply (bool_decide_unpack _). vm_compute. exact I.
  - intros k chunk Hc. cbn [axios_get fileServer downloadCommand.url].
    change (Z.of_nat (length tenBytes)) with 10.
    cbn [downloadCommand.chunks downloadCommand.limit] in Hc. rewrite Hc.
    cbn [default]. repeat split.
Defined.
